(** * webob.etag: ETag, If-Match, If-None-Match and If-Range header values

    A shallow embedding of [webob/etag.py] (Python 2): the two sentinel
    values [AnyETag] and [NoETag], the tag list matcher [ETagMatcher] with
    its tolerant [parse] loop and its string form, and the two [If-Range]
    variants [IfRange] and [IfRangeDate].

    Python [str] values are embedded as [string] (a sequence of 8-bit
    characters, which is what a Python 2 [str] is).  A Python exception is
    an explicit [Raise] outcome; the [while] loop of [ETagMatcher.parse] is
    a fuelled recursion whose third outcome, [OutOfFuel], is shown never
    to happen. *)

From Stdlib Require Import String Ascii List Bool Arith Lia ZArith.
Import ListNotations.

Open Scope string_scope.

(** ** Outcomes of a Python call *)

Inductive exn : Type :=
| ValueError
| ParseError.

Inductive outcome (A : Type) : Type :=
| Return (a : A)
| Raise (e : exn)
| OutOfFuel.

Arguments Return {A} a.
Arguments Raise {A} e.
Arguments OutOfFuel {A}.

Definition bind {A B : Type} (m : outcome A) (k : A -> outcome B) : outcome B :=
  match m with
  | Return a => k a
  | Raise e => Raise e
  | OutOfFuel => OutOfFuel
  end.

Notation "x <- m ;; k" := (bind m (fun x => k))
  (at level 61, m at next level, right associativity).

(** ** The methods of Python's [str] that the module uses *)

Module PyStr.

(** The double quote character, and the one-character string holding it. *)
Definition dquote : ascii := "034"%char.
Definition DQ : string := String dquote EmptyString.

(** [c in chars] for a one-character [c]. *)
Fixpoint char_in (c : ascii) (chars : string) : bool :=
  match chars with
  | EmptyString => false
  | String d chars' => Ascii.eqb c d || char_in c chars'
  end.

(** [s.lstrip(chars)] *)
Fixpoint lstrip_chars (chars s : string) : string :=
  match s with
  | EmptyString => EmptyString
  | String c s' => if char_in c chars then lstrip_chars chars s' else s
  end.

(** [s.rstrip(chars)] *)
Fixpoint rstrip_chars (chars s : string) : string :=
  match s with
  | EmptyString => EmptyString
  | String c s' =>
      match rstrip_chars chars s' with
      | EmptyString => if char_in c chars then EmptyString else String c EmptyString
      | r => String c r
      end
  end.

(** [s.strip(chars)] *)
Definition strip_chars (chars s : string) : string :=
  lstrip_chars chars (rstrip_chars chars s).

(** The characters [str.strip()] removes when called without argument:
    tab, line feed, vertical tab, form feed, carriage return, space. *)
Definition whitespace : string :=
  String "009" (String "010" (String "011" (String "012"
    (String "013" (String "032" EmptyString))))).

(** [s.strip()] *)
Definition strip (s : string) : string := strip_chars whitespace s.

(** [c.lower()] on one character: only [A]..[Z] change. *)
Definition lower_char (c : ascii) : ascii :=
  let n := nat_of_ascii c in
  if Nat.leb 65 n && Nat.leb n 90 then ascii_of_nat (n + 32) else c.

(** [s.lower()] *)
Fixpoint lower (s : string) : string :=
  match s with
  | EmptyString => EmptyString
  | String c s' => String (lower_char c) (lower s')
  end.

(** [s.startswith(p)] *)
Fixpoint startswith (p s : string) : bool :=
  match p, s with
  | EmptyString, _ => true
  | String _ _, EmptyString => false
  | String a p', String b s' => Ascii.eqb a b && startswith p' s'
  end.

(** [s.endswith(p)] *)
Fixpoint endswith (p s : string) : bool :=
  String.eqb s p ||
  match s with
  | EmptyString => false
  | String _ s' => endswith p s'
  end.

(** The slice [s[n:]] *)
Fixpoint drop (n : nat) (s : string) : string :=
  match n, s with
  | O, _ => s
  | S _, EmptyString => EmptyString
  | S n', String _ s' => drop n' s'
  end.

(** The text before and the text after the first occurrence of [sep],
    when there is one. *)
Fixpoint break (sep : ascii) (s : string) : option (string * string) :=
  match s with
  | EmptyString => None
  | String c s' =>
      if Ascii.eqb c sep then Some (EmptyString, s')
      else match break sep s' with
           | Some (a, b) => Some (String c a, b)
           | None => None
           end
  end.

(** [s.split(sep, 1)] for a one-character separator: a list of one or
    two strings. *)
Definition split1 (sep : ascii) (s : string) : list string :=
  match break sep s with
  | Some (a, b) => [a; b]
  | None => [s]
  end.

(** The tuple assignment [a, b = l], which raises [ValueError] unless
    [l] has exactly two items. *)
Definition unpack2 (l : list string) : outcome (string * string) :=
  match l with
  | [a; b] => Return (a, b)
  | _ => Raise ValueError
  end.

(** [sep.join(items)] *)
Fixpoint join (sep : string) (items : list string) : string :=
  match items with
  | [] => EmptyString
  | [x] => x
  | x :: rest => x ++ sep ++ join sep rest
  end.

(** The truth value of a string: [bool(s)]. *)
Definition nonempty (s : string) : bool :=
  match s with
  | EmptyString => false
  | String _ _ => true
  end.

End PyStr.
Import PyStr.

(** ** The values a header is parsed to *)

(** [AnyETag] and [NoETag] are the module's two singletons; an
    [ETagMatcher] holds the list of strong tags and the list of weak
    tags. *)
Inductive etag_value : Type :=
| AnyETag
| NoETag
| ETagMatcher (etags weak_etags : list string).

(** [other in l] for a list of strings [l]; [other] is a string or [None],
    and [None] equals no string. *)
Definition py_in (other : option string) (l : list string) : bool :=
  match other with
  | Some t => existsb (String.eqb t) l
  | None => false
  end.

(** The three [__contains__] methods. *)
Definition contains (self : etag_value) (other : option string) : bool :=
  match self with
  | AnyETag => true
  | NoETag => false
  | ETagMatcher etags weak_etags => py_in other etags || py_in other weak_etags
  end.

(** The [__nonzero__] methods; [ETagMatcher] defines none, so an instance
    is always true. *)
Definition truthy (self : etag_value) : bool :=
  match self with
  | AnyETag => false
  | NoETag => false
  | ETagMatcher _ _ => true
  end.

(** ** ETagMatcher.parse *)

(** The body of the loop after the [W/] test, up to the test
    [etag == '*']: the tag body [etag] and the remaining text [rest] read
    from [value], the text left by the [W/] test.  The [ValueError] of the
    tuple assignment in the quoted branch is caught by the [except]
    clause; the tuple assignment in the unquoted branch is not inside a
    [try]. *)
Definition read_tag (weak : bool) (value : string) : outcome (bool * string * string) :=
  if startswith DQ value then
    match unpack2 (split1 dquote (drop 1 value)) with
    | Return (etag, rest) => Return (weak, etag, strip_chars ", " rest)
    | Raise ValueError => Return (weak, strip_chars (" " ++ DQ ++ ",") value, EmptyString)
    | Raise e => Raise e
    | OutOfFuel => OutOfFuel
    end
  else if char_in "," value then
    match unpack2 (split1 "," value) with
    | Return (etag, rest) => Return (weak, etag, strip rest)
    | Raise e => Raise e
    | OutOfFuel => OutOfFuel
    end
  else Return (weak, value, EmptyString).

(** One turn of the [while] loop up to the test [etag == '*']: the weak
    flag, the tag body and the remaining text. *)
Definition next_tag (value : string) : outcome (bool * string * string) :=
  if startswith "w/" (lower value) then read_tag true (drop 2 value)
  else read_tag false value.

(** The [while value:] loop; [results] and [weak_results] are the two
    lists the loop appends to. *)
Fixpoint parse_loop (fuel : nat) (value : string) (results weak_results : list string)
  : outcome etag_value :=
  match value with
  | EmptyString => Return (ETagMatcher results weak_results)
  | String _ _ =>
      match fuel with
      | O => OutOfFuel
      | S fuel' =>
          match next_tag value with
          | Return (weak, etag, rest) =>
              if String.eqb etag "*" then Return AnyETag
              else if nonempty etag then
                if weak then parse_loop fuel' rest results (weak_results ++ [etag])%list
                else parse_loop fuel' rest (results ++ [etag])%list weak_results
              else parse_loop fuel' rest results weak_results
          | Raise e => Raise e
          | OutOfFuel => OutOfFuel
          end
      end
  end.

(** [ETagMatcher.parse(value)]: one unit of fuel for each character of
    [value]. *)
Definition parse (value : string) : outcome etag_value :=
  parse_loop (String.length value) value [] [].

(** The tag bodies [etag] that the turns of the loop extract from [value],
    in order, up to and including the first one that is [*] (the turn that
    leaves the loop by [return]). *)
Fixpoint extracted_tags (fuel : nat) (value : string) : list string :=
  match value with
  | EmptyString => []
  | String _ _ =>
      match fuel with
      | O => []
      | S fuel' =>
          match next_tag value with
          | Return (_, etag, rest) =>
              etag :: (if String.eqb etag "*" then [] else extracted_tags fuel' rest)
          | _ => []
          end
      end
  end.

(** [ETagMatcher.__str__] *)
Definition fmt_strong (tag : string) : string := DQ ++ tag ++ DQ.
Definition fmt_weak (tag : string) : string := "W/" ++ DQ ++ tag ++ DQ.

Definition to_str (etags weak_etags : list string) : string :=
  let items := map fmt_strong etags in
  let items := fold_left (fun items weak => (items ++ [fmt_weak weak])%list) weak_etags items in
  join ", " items.

(** [str(v)] for the three kinds of value. *)
Definition str (self : etag_value) : string :=
  match self with
  | AnyETag => "*"
  | NoETag => EmptyString
  | ETagMatcher etags weak_etags => to_str etags weak_etags
  end.

(** ** If-Range *)

(** What [IfRangeDate.match] evaluates to: the expression
    [last_modified and (last_modified <= self.date)] is [None] when
    [last_modified] is [None], and the boolean of the comparison
    otherwise (a [datetime] is always true). *)
Inductive py_result : Type :=
| PyNone
| PyBool (b : bool).

Definition is_true (r : py_result) : bool :=
  match r with
  | PyBool true => true
  | _ => false
  end.

Section IfRange.

(** Timestamps ([datetime] objects) and their order [<=]. *)
Variable Date : Type.
Variable date_le : Date -> Date -> bool.

(** [parse_date] of [webob.datetime_utils], with the contract
    [parse(string) -> timestamp | fails with ParseError]: [None] stands
    for the failure. *)
Variable parse_date : string -> option Date.

Definition call_parse_date (value : string) : outcome Date :=
  match parse_date value with
  | Some d => Return d
  | None => Raise ParseError
  end.

(** An [IfRange] holds a tag value, an [IfRangeDate] a date. *)
Inductive if_range : Type :=
| IfRange (etag : etag_value)
| IfRangeDate (date : Date).

(** The [last_modified] argument: absent, a string or a timestamp. *)
Inductive last_modified_arg : Type :=
| LMNone
| LMStr (s : string)
| LMDate (d : Date).

(** [IfRange.parse(value)]; [value] is [None] or a string. *)
Definition IfRange_parse (value : option string) : outcome if_range :=
  match value with
  | None => Return (IfRange AnyETag)
  | Some v =>
      if negb (nonempty v) then Return (IfRange AnyETag)
      else if endswith " GMT" v then
        d <- call_parse_date v ;; Return (IfRangeDate d)
      else
        e <- parse v ;; Return (IfRange e)
  end.

(** [IfRange.match(etag, last_modified)] *)
Definition IfRange_match (self_etag : etag_value) (etag : option string)
           (last_modified : last_modified_arg) : bool :=
  contains self_etag etag.

(** [IfRangeDate.match(etag, last_modified)] *)
Definition IfRangeDate_match (self_date : Date) (etag : option string)
           (last_modified : last_modified_arg) : outcome py_result :=
  last_modified <-
    match last_modified with
    | LMStr s => d <- call_parse_date s ;; Return (Some d)
    | LMDate d => Return (Some d)
    | LMNone => Return None
    end ;;
  Return match last_modified with
         | None => PyNone
         | Some lm => PyBool (date_le lm self_date)
         end.

(** The last-modified value a call of [IfRangeDate.match] compares: the
    argument itself, or what [parse_date] makes of it when it is a
    string; there is none when the argument is [None] or when
    [parse_date] fails. *)
Definition last_modified_value (last_modified : last_modified_arg) : option Date :=
  match last_modified with
  | LMNone => None
  | LMStr s => parse_date s
  | LMDate d => Some d
  end.

(** [self.match(etag, last_modified)], by the class of [self]. *)
Definition if_range_match (self : if_range) (etag : option string)
           (last_modified : last_modified_arg) : outcome py_result :=
  match self with
  | IfRange e => Return (PyBool (IfRange_match e etag last_modified))
  | IfRangeDate d => IfRangeDate_match d etag last_modified
  end.

(** The dispatch of [IfRange.parse] as the specification words it: the
    date branch is taken when the trimmed value ends with [" GMT"]. *)
Definition spec_IfRange_parse (value : option string) : outcome if_range :=
  match value with
  | None => Return (IfRange AnyETag)
  | Some v =>
      if negb (nonempty v) then Return (IfRange AnyETag)
      else if endswith " GMT" (strip v) then
        d <- call_parse_date v ;; Return (IfRangeDate d)
      else
        e <- parse v ;; Return (IfRange e)
  end.

End IfRange.

Arguments IfRange_parse {Date} parse_date value.
Arguments IfRange_match {Date} self_etag etag last_modified.
Arguments IfRangeDate_match {Date} date_le parse_date self_date etag last_modified.
Arguments if_range_match {Date} date_le parse_date self etag last_modified.
Arguments spec_IfRange_parse {Date} parse_date value.
Arguments last_modified_value {Date} parse_date last_modified.
Arguments IfRange {Date} etag.
Arguments IfRangeDate {Date} date.
Arguments LMNone {Date}.
Arguments LMStr {Date} s.
Arguments LMDate {Date} d.

(** ** A date parser to run the date variant on *)

Module HttpDate.

Open Scope Z_scope.

(** Modelled from the spec: [parse_date] of [webob.datetime_utils] is
    not part of this module; its contract is
    [parse(string) -> timestamp | fails with ParseError].  This parser
    reads the fixed-length RFC 1123 form
    [Sun, 06 Nov 1994 08:49:37 GMT] to the seconds since
    1970-01-01 00:00:00 GMT, and fails ([None]) on any other text. *)

Definition digit (c : ascii) : option Z :=
  let n := Z.of_nat (nat_of_ascii c) in
  if (48 <=? n) && (n <=? 57) then Some (n - 48) else None.

Fixpoint number_from (acc : Z) (s : string) : option Z :=
  match s with
  | EmptyString => Some acc
  | String c s' =>
      match digit c with
      | Some d => number_from (10 * acc + d) s'
      | None => None
      end
  end.

Definition number (s : string) : option Z :=
  match s with
  | EmptyString => None
  | _ => number_from 0 s
  end.

Definition month (s : string) : option Z :=
  let fix find (names : list string) (k : Z) : option Z :=
    match names with
    | [] => None
    | n :: names' => if String.eqb s n then Some k else find names' (k + 1)
    end in
  find ["Jan"; "Feb"; "Mar"; "Apr"; "May"; "Jun";
        "Jul"; "Aug"; "Sep"; "Oct"; "Nov"; "Dec"]%string 1.

Definition is_day_name (s : string) : bool :=
  existsb (String.eqb s) ["Mon"; "Tue"; "Wed"; "Thu"; "Fri"; "Sat"; "Sun"]%string.

(** Days from 1970-01-01 to the given day of the proleptic Gregorian
    calendar. *)
Definition days_from_civil (y m d : Z) : Z :=
  let y := if m <=? 2 then y - 1 else y in
  let era := y / 400 in
  let yoe := y - era * 400 in
  let mp := (m + 9) mod 12 in
  let doy := (153 * mp + 2) / 5 + d - 1 in
  let doe := yoe * 365 + yoe / 4 - yoe / 100 + doy in
  era * 146097 + doe - 719468.

Definition parse_date (value : string) : option Z :=
  if negb (Nat.eqb (String.length value) 29) then None
  else if negb (is_day_name (substring 0 3 value)) then None
  else if negb (String.eqb (substring 3 2 value) ", ") then None
  else if negb (String.eqb (substring 7 1 value) " ") then None
  else if negb (String.eqb (substring 11 1 value) " ") then None
  else if negb (String.eqb (substring 16 1 value) " ") then None
  else if negb (String.eqb (substring 19 1 value) ":") then None
  else if negb (String.eqb (substring 22 1 value) ":") then None
  else if negb (String.eqb (substring 25 4 value) " GMT") then None
  else
    match number (substring 5 2 value), month (substring 8 3 value),
          number (substring 12 4 value), number (substring 17 2 value),
          number (substring 20 2 value), number (substring 23 2 value) with
    | Some d, Some m, Some y, Some hh, Some mm, Some ss =>
        Some (((days_from_civil y m d * 24 + hh) * 60 + mm) * 60 + ss)
    | _, _, _, _, _, _ => None
    end.

End HttpDate.

(** ** Well-formed tag lists *)

Module TagList.

(** The header grammar of well-formed values: elements made of an optional
    [W/] marker, in either case, and a tag between quotes, separated by a
    comma and a space. *)
Inductive marker : Type :=
| Strong
| WeakUpper
| WeakLower.

Definition is_weak (m : marker) : bool :=
  match m with
  | Strong => false
  | WeakUpper => true
  | WeakLower => true
  end.

Definition marker_text (m : marker) : string :=
  match m with
  | Strong => EmptyString
  | WeakUpper => "W/"
  | WeakLower => "w/"
  end.

Definition element_text (e : marker * string) : string :=
  marker_text (fst e) ++ DQ ++ snd e ++ DQ.

Definition list_text (elems : list (marker * string)) : string :=
  join ", " (map element_text elems).

(** A well-formed tag: not empty, without quote or comma, and not [*]. *)
Definition well_formed_tag (tag : string) : bool :=
  nonempty tag && negb (char_in dquote tag) && negb (char_in "," tag) &&
  negb (String.eqb tag "*").

(** The tags of the strong elements and of the weak elements, in order. *)
Definition strong_tags (elems : list (marker * string)) : list string :=
  map snd (filter (fun e => negb (is_weak (fst e))) elems).

Definition weak_tags (elems : list (marker * string)) : list string :=
  map snd (filter (fun e => is_weak (fst e)) elems).

End TagList.
Import TagList.

(** ** The containment property as the specification words it *)

Module Spec.

(** [s.split(sep)] for a one-character separator. *)
Fixpoint split_all (sep : ascii) (s : string) : list string :=
  match s with
  | EmptyString => [EmptyString]
  | String c s' =>
      if Ascii.eqb c sep then EmptyString :: split_all sep s'
      else match split_all sep s' with
           | x :: rest => String c x :: rest
           | [] => [String c EmptyString]
           end
  end.

(** The last character removed. *)
Fixpoint drop_last (s : string) : string :=
  match s with
  | EmptyString => EmptyString
  | String c EmptyString => EmptyString
  | String c s' => String c (drop_last s')
  end.

(** The tag an element of the list stands for: surrounding blanks and an
    optional [W/] marker of either case removed, and the quotes removed
    when the element is quoted. *)
Definition element_tag (piece : string) : string :=
  let p := strip piece in
  let p := if startswith "w/" (lower p) then drop 2 p else p in
  if startswith DQ p && endswith DQ (drop 1 p) then drop_last (drop 1 p) else p.

(** The tags of the comma-separated elements of [value]. *)
Definition elements (value : string) : list string :=
  map element_tag (split_all "," value).


End Spec.

(** ** The rest of the module: the header property and the If-Range methods *)

Module EtagProperty.

(** [req.environ]: a dictionary from header keys to a string or [None].  A
    key that is absent maps to [None] here, a key that holds Python's
    [None] to [Some None]. *)
Definition environ : Type := string -> option (option string).

(** [environ.get(key)]: [None] when the key is absent. *)
Definition environ_get (env : environ) (key : string) : option string :=
  match env key with
  | Some v => v
  | None => None
  end.

(** [environ[key] = v] *)
Definition environ_set (env : environ) (key : string) (v : option string) : environ :=
  fun k => if String.eqb k key then Some v else env k.

(** The outcome of a statement that can raise [KeyError]. *)
Inductive key_outcome (A : Type) : Type :=
| Done (a : A)
| RaiseKeyError.

Arguments Done {A} a.
Arguments RaiseKeyError {A}.

(** [del environ[key]] *)
Definition environ_del (env : environ) (key : string) : key_outcome environ :=
  match env key with
  | Some _ => Done (fun k => if String.eqb k key then None else env k)
  | None => RaiseKeyError
  end.

(** The getter [fget] of [etag_property(key, default, rfc_section)]. *)
Definition fget (key : string) (default : etag_value) (env : environ)
  : outcome etag_value :=
  match environ_get env key with
  | None => Return default
  | Some value =>
      if negb (nonempty value) then Return default
      else if String.eqb value "*" then Return AnyETag
      else parse value
  end.

(** The setter [fset]; [val] is [None] or a value with a string form. *)
Definition fset (key : string) (env : environ) (val : option etag_value) : environ :=
  match val with
  | None => environ_set env key None
  | Some v => environ_set env key (Some (str v))
  end.

(** The deleter [fdel]. *)
Definition fdel (key : string) (env : environ) : key_outcome environ :=
  environ_del env key.

End EtagProperty.
Import EtagProperty.

Section IfRangeMethods.

Variable Date : Type.
Variable date_le : Date -> Date -> bool.
Variable parse_date : string -> option Date.

(** The two attributes of a response that the module reads. *)
Record response : Type := {
  response_etag : option string;
  response_last_modified : last_modified_arg Date
}.

(** [IfRange.match_response(response)]: [last_modified] keeps its default,
    [None]. *)
Definition IfRange_match_response (self_etag : etag_value) (r : response) : bool :=
  IfRange_match self_etag (response_etag r) (@LMNone Date).

(** [IfRangeDate.match_response(response)]: [etag] keeps its default,
    [None]. *)
Definition IfRangeDate_match_response (self_date : Date) (r : response)
  : outcome py_result :=
  IfRangeDate_match date_le parse_date self_date None (response_last_modified r).

(** [IfRange.__nonzero__] *)
Definition IfRange_nonzero (self_etag : etag_value) : bool := truthy self_etag.

(** [IfRange.__str__] *)
Definition IfRange_str (self_etag : etag_value) : string :=
  if truthy self_etag then str self_etag else EmptyString.

End IfRangeMethods.

Arguments response_etag {Date} r.
Arguments response_last_modified {Date} r.
Arguments IfRange_match_response {Date} self_etag r.
Arguments IfRangeDate_match_response {Date} date_le parse_date self_date r.

(** ** Lists of tags written without quotes *)

Module BareList.

(** The last character of a string. *)
Fixpoint last_char (s : string) : option ascii :=
  match s with
  | EmptyString => None
  | String c EmptyString => Some c
  | String _ s' => last_char s'
  end.




(** The text that follows a tag in a list: nothing, or a comma and more. *)
Definition list_tail (tail : string) : Prop :=
  tail = EmptyString \/ exists x, tail = String "," x.

End BareList.
Import BareList.

(** ** Lists of quoted and unquoted elements *)

Module Grammar.
















End Grammar.
Import Grammar.

(** ** Predicates on tags *)

(** What the loop lets into its two lists: a tag that is neither empty nor
    [*]. *)
Definition proper_tag (t : string) : Prop := t <> EmptyString /\ t <> "*".

(** A tag that can be written between quotes and read back. *)
Definition quotable (tag : string) : Prop :=
  tag <> EmptyString /\ char_in dquote tag = false /\ tag <> "*".

(** The elements that [ETagMatcher.__str__] writes. *)
Definition str_elems (etags weak_etags : list string) : list (marker * string) :=
  (map (fun tag => (Strong, tag)) etags ++ map (fun tag => (WeakUpper, tag)) weak_etags)%list.

(** * Proofs *)

(** ** Facts about the string methods *)

Section StringFacts.

Lemma append_nil_r (s : string) : s ++ EmptyString = s.
Proof. induction s as [|c s IH]; simpl; [reflexivity | now rewrite IH]. Qed.

Lemma append_assoc (a b c : string) : (a ++ b) ++ c = a ++ (b ++ c).
Proof. induction a as [|x a IH]; simpl; [reflexivity | now rewrite IH]. Qed.

Lemma length_append (a b : string) :
  String.length (a ++ b) = String.length a + String.length b.
Proof. induction a as [|x a IH]; simpl; [reflexivity | now rewrite IH]. Qed.

Lemma length_lstrip_chars (chars s : string) :
  String.length (lstrip_chars chars s) <= String.length s.
Proof.
  induction s as [|c s IH]; simpl; [lia|].
  destruct (char_in c chars); simpl; lia.
Qed.

Lemma length_rstrip_chars (chars s : string) :
  String.length (rstrip_chars chars s) <= String.length s.
Proof.
  induction s as [|c s IH]; simpl; [lia|].
  destruct (rstrip_chars chars s) as [|d r]; simpl in *.
  - destruct (char_in c chars); simpl; lia.
  - lia.
Qed.

Lemma length_strip_chars (chars s : string) :
  String.length (strip_chars chars s) <= String.length s.
Proof.
  unfold strip_chars.
  pose proof (length_lstrip_chars chars (rstrip_chars chars s)).
  pose proof (length_rstrip_chars chars s). lia.
Qed.

Lemma length_drop (n : nat) (s : string) :
  String.length (drop n s) = String.length s - n.
Proof.
  revert s; induction n as [|n IH]; intros [|c s]; simpl; auto.
Qed.

Lemma break_length (sep : ascii) (s a b : string) :
  break sep s = Some (a, b) ->
  String.length s = String.length a + 1 + String.length b.
Proof.
  revert a b; induction s as [|c s IH]; simpl; intros a b H; [discriminate|].
  destruct (Ascii.eqb c sep).
  - injection H as <- <-. simpl. lia.
  - destruct (break sep s) as [[a' b']|]; [|discriminate].
    injection H as <- <-. simpl. rewrite (IH a' b' eq_refl). lia.
Qed.

(** [break] finds the separator exactly when it occurs. *)
Lemma break_none (sep : ascii) (s : string) :
  break sep s = None <-> char_in sep s = false.
Proof.
  induction s as [|c s IH]; simpl; [tauto|].
  rewrite (Ascii.eqb_sym sep c).
  destruct (Ascii.eqb c sep); simpl.
  - split; discriminate.
  - destruct (break sep s) as [[a b]|]; rewrite <- IH; split; congruence.
Qed.

Lemma break_app (sep : ascii) (a b : string) :
  char_in sep a = false ->
  break sep (a ++ String sep b) = Some (a, b).
Proof.
  induction a as [|c a IH]; simpl; intros H.
  - now rewrite Ascii.eqb_refl.
  - apply orb_false_iff in H as [Hc Ha].
    rewrite Ascii.eqb_sym, Hc, (IH Ha). reflexivity.
Qed.

Lemma rstrip_chars_end (chars s : string) (c : ascii) :
  char_in c chars = false ->
  rstrip_chars chars (s ++ String c EmptyString) = s ++ String c EmptyString.
Proof.
  intros Hc. induction s as [|d s IH]; simpl.
  - now rewrite Hc.
  - rewrite IH. destruct s; reflexivity.
Qed.

Lemma endswith_unfold (p s : string) :
  endswith p s =
    String.eqb s p ||
    match s with
    | EmptyString => false
    | String _ s' => endswith p s'
    end.
Proof. destruct s; reflexivity. Qed.

Lemma endswith_iff (p s : string) :
  endswith p s = true <-> exists pre, s = pre ++ p.
Proof.
  induction s as [|c s IH]; rewrite endswith_unfold.
  - rewrite orb_false_r, String.eqb_eq. split.
    + intros <-. now exists EmptyString.
    + intros [[|d pre] H]; simpl in H; [auto | discriminate].
  - rewrite orb_true_iff, String.eqb_eq, IH. split.
    + intros [<- | [pre ->]]; [now exists EmptyString | now exists (String c pre)].
    + intros [[|d pre] H]; simpl in H; [now left|].
      injection H as <- ->. right. now exists pre.
Qed.

Lemma nonempty_false (s : string) : nonempty s = false <-> s = EmptyString.
Proof. destruct s; simpl; split; congruence. Qed.

End StringFacts.

(** ** One turn of the loop *)

(** No turn of the loop raises: the only tuple assignment that is not
    guarded by [try] is guarded by the test [',' in value]. *)
Lemma read_tag_returns (w : bool) (v : string) :
  exists etag rest, read_tag w v = Return (w, etag, rest).
Proof.
  unfold read_tag, split1.
  destruct (startswith DQ v).
  - destruct (break dquote (drop 1 v)) as [[a b]|]; simpl; eauto.
  - destruct (char_in "," v) eqn:Hc; [|eauto].
    destruct (break "," v) as [[a b]|] eqn:Hb; simpl; [eauto|].
    apply break_none in Hb; congruence.
Qed.

Lemma next_tag_returns (value : string) :
  exists weak etag rest, next_tag value = Return (weak, etag, rest).
Proof.
  unfold next_tag.
  destruct (startswith "w/" (lower value));
    [destruct (read_tag_returns true (drop 2 value)) as (e & r & H)
    |destruct (read_tag_returns false value) as (e & r & H)];
    rewrite H; eauto.
Qed.

(** What is left after the tag is shorter than the text the tag was read
    from, except when that text was already empty. *)
Lemma read_tag_shorter (w weak : bool) (v etag rest : string) :
  read_tag w v = Return (weak, etag, rest) ->
  String.length rest < String.length v \/ (v = EmptyString /\ rest = EmptyString).
Proof.
  unfold read_tag, split1.
  destruct (startswith DQ v) eqn:Hq.
  - destruct v as [|c v]; [discriminate|]. simpl drop.
    destruct (break dquote v) as [[a b]|] eqn:Hb; simpl.
    + intros H; injection H as _ _ <-.
      apply break_length in Hb.
      pose proof (length_strip_chars ", " b). lia.
    + intros H; injection H as _ _ <-. simpl. lia.
  - destruct (char_in "," v) eqn:Hc.
    + destruct (break "," v) as [[a b]|] eqn:Hb; simpl; [|discriminate].
      intros H; injection H as _ _ <-.
      apply break_length in Hb.
      pose proof (length_strip_chars whitespace b). unfold strip. lia.
    + intros H; injection H as _ _ <-. destruct v; simpl; [auto | lia].
Qed.

(** Every turn of the loop leaves less text than it was given. *)
Lemma next_tag_shorter (value : string) (weak : bool) (etag rest : string) :
  value <> EmptyString ->
  next_tag value = Return (weak, etag, rest) ->
  String.length rest < String.length value.
Proof.
  intros Hne. unfold next_tag.
  assert (Hpos : 0 < String.length value) by (destruct value; simpl; [congruence | lia]).
  destruct (startswith "w/" (lower value)); intros H;
    apply read_tag_shorter in H as [H | [Hv ->]].
  - rewrite length_drop in H. lia.
  - simpl. lia.
  - lia.
  - congruence.
Qed.

(** ** The loop *)

Lemma parse_loop_S (fuel : nat) (c : ascii) (v : string) (rs ws : list string) :
  parse_loop (S fuel) (String c v) rs ws =
    match next_tag (String c v) with
    | Return (weak, etag, rest) =>
        if String.eqb etag "*" then Return AnyETag
        else if nonempty etag then
          if weak then parse_loop fuel rest rs (ws ++ [etag])%list
          else parse_loop fuel rest (rs ++ [etag])%list ws
        else parse_loop fuel rest rs ws
    | Raise e => Raise e
    | OutOfFuel => OutOfFuel
    end.
Proof. reflexivity. Qed.

(** Fuel beyond the length of the text changes nothing. *)
Lemma parse_loop_fuel (fuel fuel' : nat) (value : string) (rs ws : list string) :
  String.length value <= fuel ->
  String.length value <= fuel' ->
  parse_loop fuel value rs ws = parse_loop fuel' value rs ws.
Proof.
  revert fuel' value rs ws.
  induction fuel as [|f IH]; intros fuel' [|c v] rs ws H H';
    try (destruct fuel'; reflexivity); simpl in H; try lia.
  destruct fuel' as [|f']; [simpl in H'; lia|].
  rewrite !parse_loop_S.
  destruct (next_tag (String c v)) as [[[w e] r]|e|] eqn:Hn; try reflexivity.
  apply next_tag_shorter in Hn; [|discriminate]. simpl in Hn, H'.
  destruct (String.eqb e "*"); [reflexivity|].
  destruct (nonempty e); [destruct w|]; apply IH; lia.
Qed.

(** With one unit of fuel for each character the loop runs to its end and
    returns a value. *)
Lemma parse_loop_returns (fuel : nat) (value : string) (rs ws : list string) :
  String.length value <= fuel ->
  exists v, parse_loop fuel value rs ws = Return v.
Proof.
  revert value rs ws.
  induction fuel as [|f IH]; intros [|c v] rs ws H;
    try (simpl; eauto; fail); simpl in H; try lia.
  rewrite parse_loop_S.
  destruct (next_tag_returns (String c v)) as (w & e & r & Hn). rewrite Hn.
  apply next_tag_shorter in Hn; [|discriminate]. simpl in Hn.
  destruct (String.eqb e "*"); [eauto|].
  destruct (nonempty e); [destruct w|]; apply IH; lia.
Qed.

(** The loop returns [AnyETag] exactly when one of its turns extracts the
    tag body [*]. *)
Lemma parse_loop_any (fuel : nat) (value : string) (rs ws : list string) :
  String.length value <= fuel ->
  In "*" (extracted_tags fuel value) <-> parse_loop fuel value rs ws = Return AnyETag.
Proof.
  revert value rs ws.
  induction fuel as [|f IH]; intros [|c v] rs ws H;
    try (simpl; split; [tauto | discriminate]); simpl in H; try lia.
  rewrite parse_loop_S. cbn [extracted_tags].
  destruct (next_tag_returns (String c v)) as (w & e & r & Hn). rewrite Hn.
  apply next_tag_shorter in Hn; [|discriminate]. simpl in Hn.
  destruct (String.eqb e "*") eqn:He.
  - apply String.eqb_eq in He. subst e. simpl. tauto.
  - apply String.eqb_neq in He.
    assert (Hin : In "*" (e :: extracted_tags f r) <-> In "*" (extracted_tags f r)).
    { simpl. split; [intros [E | E]; [congruence | exact E] | auto]. }
    rewrite Hin.
    destruct (nonempty e); [destruct w|]; apply IH; lia.
Qed.

(** ** Termination, tolerance and the wildcard *)

Lemma weak_marker_two_chars (value : string) :
  startswith "w/" (lower value) = true ->
  String.length (drop 2 value) + 2 = String.length value.
Proof.
  destruct value as [|a [|b v]]; simpl.
  - discriminate.
  - rewrite andb_false_r. discriminate.
  - intros _. lia.
Qed.

(** C10: [ETagMatcher.parse] terminates on every string.  Removing a [W/]
    marker takes two characters away; every turn of the loop that starts
    on a non-empty text leaves a strictly shorter text; so with one unit
    of fuel for each character of the text, or more, the loop never runs
    out of fuel and its result does not depend on the fuel. *)
Theorem parse_terminates :
  (forall value, startswith "w/" (lower value) = true ->
     String.length (drop 2 value) + 2 = String.length value) /\
  (forall value weak etag rest,
     value <> EmptyString ->
     next_tag value = Return (weak, etag, rest) ->
     String.length rest < String.length value) /\
  (forall value fuel rs ws,
     String.length value <= fuel ->
     parse_loop fuel value rs ws <> OutOfFuel /\
     parse_loop fuel value rs ws = parse_loop (String.length value) value rs ws) /\
  (forall value, parse value <> OutOfFuel).
Proof.
  split; [exact weak_marker_two_chars|].
  split; [exact next_tag_shorter|].
  split.
  - intros value fuel rs ws H. split.
    + destruct (parse_loop_returns fuel value rs ws H) as [v ->]. discriminate.
    + apply parse_loop_fuel; lia.
  - intros value. unfold parse.
    destruct (parse_loop_returns (String.length value) value [] [] (le_n _)) as [v ->].
    discriminate.
Qed.

Lemma parse_terminates_witness :
  String.length (drop 2 ("W/" ++ DQ ++ "a" ++ DQ)) + 2 = String.length ("W/" ++ DQ ++ "a" ++ DQ) /\
  String.length "b" < String.length "a, b" /\
  parse_loop 7 "a, b" [] [] = parse_loop 4 "a, b" [] [].
Proof.
  destruct parse_terminates as (H1 & H2 & H3 & _).
  split; [apply H1; reflexivity|].
  split; [apply (H2 "a, b" false "a" "b"); [discriminate | reflexivity]|].
  apply (H3 "a, b" 7 [] []). simpl. lia.
Defined.

(** An opening quote without a closing one: the whole text, trimmed of
    spaces, quotes and commas, is the tag, and nothing is left. *)
Lemma next_tag_unterminated (body : string) :
  char_in dquote body = false ->
  next_tag (DQ ++ body) =
    Return (false, strip_chars (" " ++ DQ ++ ",") (DQ ++ body), EmptyString).
Proof.
  intros H. apply break_none in H.
  unfold next_tag. change (startswith "w/" (lower (DQ ++ body))) with false.
  cbv iota. unfold read_tag, split1.
  change (startswith DQ (DQ ++ body)) with true. cbv iota.
  change (drop 1 (DQ ++ body)) with body. rewrite H. reflexivity.
Qed.

(** C3: no input makes [ETagMatcher.parse] raise: each turn of the loop
    returns its tag and remaining text, so the whole call returns a value;
    a text that opens a quote and never closes it gives its trimmed
    content as the tag and ends the loop, and the text made of a quote
    followed by [abc] parses to the strong list [abc] and an empty weak
    list. *)
Theorem parse_never_raises :
  (forall value, exists weak etag rest, next_tag value = Return (weak, etag, rest)) /\
  (forall value e, parse value <> Raise e) /\
  (forall value, exists v, parse value = Return v) /\
  (forall body, char_in dquote body = false ->
     next_tag (DQ ++ body) =
       Return (false, strip_chars (" " ++ DQ ++ ",") (DQ ++ body), EmptyString)) /\
  parse (DQ ++ "abc") = Return (ETagMatcher ["abc"] []).
Proof.
  assert (Hret : forall value, exists v, parse value = Return v).
  { intros value. apply parse_loop_returns. apply le_n. }
  split; [exact next_tag_returns|].
  split; [intros value e; destruct (Hret value) as [v ->]; discriminate|].
  split; [exact Hret|].
  split; [exact next_tag_unterminated | reflexivity].
Qed.

Lemma parse_never_raises_witness :
  next_tag (DQ ++ "abc") = Return (false, "abc", EmptyString).
Proof.
  destruct parse_never_raises as (_ & _ & _ & H & _).
  apply (H "abc"). reflexivity.
Defined.

(** C2: [ETagMatcher.parse] returns [AnyETag] as soon as a turn of its
    loop extracts the tag body [*], whatever tags the earlier turns put in
    the two lists, and it returns [AnyETag] in no other case; so the text
    [*] and the text made of a quoted [a], a comma, a space and [*] both
    parse to [AnyETag]. *)
Theorem parse_star_wins :
  (forall value weak rest fuel rs ws,
     value <> EmptyString ->
     next_tag value = Return (weak, "*", rest) ->
     parse_loop (S fuel) value rs ws = Return AnyETag) /\
  (forall value,
     In "*" (extracted_tags (String.length value) value) <->
     parse value = Return AnyETag) /\
  parse "*" = Return AnyETag /\
  parse (DQ ++ "a" ++ DQ ++ ", *") = Return AnyETag.
Proof.
  split.
  - intros [|c v] weak rest fuel rs ws Hne Hn; [congruence|].
    rewrite parse_loop_S, Hn. reflexivity.
  - split; [|split; reflexivity].
    intros value. apply parse_loop_any. apply le_n.
Qed.

Lemma parse_star_wins_witness :
  parse_loop 1 "*, x" ["a"] ["b"] = Return AnyETag /\
  parse (DQ ++ "a" ++ DQ ++ ", W/" ++ DQ ++ "b" ++ DQ ++ ", *, c") = Return AnyETag.
Proof.
  destruct parse_star_wins as (H1 & H2 & _).
  split.
  - apply (H1 "*, x" false "x"); [discriminate | reflexivity].
  - apply H2. vm_compute. tauto.
Defined.

(** C8: [ETagMatcher.parse] of the empty string is an [ETagMatcher] with an empty strong
    list and an empty weak list; it contains no tag, and it is neither
    [AnyETag] nor [NoETag]. *)
Theorem parse_empty :
  exists v,
    parse EmptyString = Return v /\
    v = ETagMatcher [] [] /\
    (forall t, contains v t = false) /\
    v <> AnyETag /\ v <> NoETag.
Proof.
  exists (ETagMatcher [] []).
  repeat split; try discriminate.
  intros [t|]; reflexivity.
Qed.

(** ** The string form *)

Lemma fold_left_snoc {A B : Type} (f : B -> A) (l : list B) (init : list A) :
  fold_left (fun items x => (items ++ [f x])%list) l init = (init ++ map f l)%list.
Proof.
  revert init; induction l as [|x l IH]; intros init; simpl.
  - now rewrite app_nil_r.
  - rewrite IH, <- app_assoc. reflexivity.
Qed.

(** C6: the string form of an [ETagMatcher] is its items joined by a comma
    and a space, the items being the strong tags in order, each between
    quotes, followed by the weak tags in order, each between quotes after
    [W/]. *)
Theorem str_joins_tags (etags weak_etags : list string) :
  str (ETagMatcher etags weak_etags) =
    join ", " (List.app (map (fun tag => DQ ++ tag ++ DQ) etags)
                        (map (fun tag => "W/" ++ DQ ++ tag ++ DQ) weak_etags)).
Proof.
  unfold str, to_str. rewrite fold_left_snoc. reflexivity.
Qed.

Example str_two_strong_one_weak :
  str (ETagMatcher ["a"; "b"] ["c"]) =
    DQ ++ "a" ++ DQ ++ ", " ++ DQ ++ "b" ++ DQ ++ ", W/" ++ DQ ++ "c" ++ DQ.
Proof. reflexivity. Qed.

(** ** If-Range *)

Section IfRangeFacts.

Variable Date : Type.
Variable date_le : Date -> Date -> bool.
Variable parse_date : string -> option Date.

(** C9: [IfRange.match] returns whether the tag is in the held tag value
    and nothing else: the [last_modified] argument does not change the
    result.  [AnyETag] contains every tag, and both an absent and an
    empty header value parse to an [IfRange] that matches every tag. *)
Theorem IfRange_match_is_containment :
  (forall (self_etag : etag_value) (etag : option string)
          (last_modified last_modified' : last_modified_arg Date),
      IfRange_match self_etag etag last_modified = contains self_etag etag /\
      IfRange_match self_etag etag last_modified =
        IfRange_match self_etag etag last_modified') /\
  (forall etag, contains AnyETag etag = true) /\
  (forall value (etag : option string) (last_modified : last_modified_arg Date),
      value = None \/ value = Some EmptyString ->
      exists r,
        IfRange_parse parse_date value = Return r /\
        if_range_match date_le parse_date r etag last_modified = Return (PyBool true)).
Proof.
  split; [intros; split; reflexivity|].
  split; [reflexivity|].
  intros value etag lm [-> | ->]; exists (IfRange AnyETag); split; reflexivity.
Qed.

(** C5: [IfRangeDate.match] returns true exactly when there is a
    last-modified value (the argument, parsed by [parse_date] when it is
    a string) and it is at most the held date.  When [parse_date] reads
    the two dates of 6 and 7 November 1994, 08:49:37 GMT, as [d1] and
    [d2] with [d1 <= d1] and not [d2 <= d1], the [IfRangeDate] parsed
    from the first date matches the first date and does not match the
    second. *)
Theorem IfRangeDate_match_spec :
  (forall (self_date : Date) (etag : option string)
          (last_modified : last_modified_arg Date),
      IfRangeDate_match date_le parse_date self_date etag last_modified
        = Return (PyBool true) <->
      exists lm, last_modified_value parse_date last_modified = Some lm /\
                 date_le lm self_date = true) /\
  (forall d1 d2 : Date,
      parse_date "Sun, 06 Nov 1994 08:49:37 GMT" = Some d1 ->
      parse_date "Mon, 07 Nov 1994 08:49:37 GMT" = Some d2 ->
      date_le d1 d1 = true ->
      date_le d2 d1 = false ->
      IfRange_parse parse_date (Some "Sun, 06 Nov 1994 08:49:37 GMT")
        = Return (IfRangeDate d1) /\
      IfRangeDate_match date_le parse_date d1 None
          (LMStr "Sun, 06 Nov 1994 08:49:37 GMT") = Return (PyBool true) /\
      IfRangeDate_match date_le parse_date d1 None
          (LMStr "Mon, 07 Nov 1994 08:49:37 GMT") = Return (PyBool false)).
Proof.
  split.
  - intros self_date etag lm. unfold IfRangeDate_match, call_parse_date.
    destruct lm as [|s|d]; simpl.
    + split; [discriminate | intros (lm & H & _); discriminate].
    + destruct (parse_date s) as [d|]; simpl.
      * split.
        -- intros H. exists d. split; [reflexivity | congruence].
        -- intros (lm & H & Hle). injection H as ->. now rewrite Hle.
      * split; [discriminate | intros (lm & H & _); discriminate].
    + split.
      * intros H. exists d. split; [reflexivity | congruence].
      * intros (lm & H & Hle). injection H as ->. now rewrite Hle.
  - intros d1 d2 H1 H2 Hle1 Hle2.
    unfold IfRange_parse, IfRangeDate_match, call_parse_date.
    simpl. rewrite ?H1, ?H2. simpl. rewrite ?Hle1, ?Hle2. auto.
Qed.

(** C4, amended: [IfRange.parse] returns an [IfRange] holding [AnyETag]
    for an absent or empty value; for a non-empty value that itself
    ends with the four characters of a space and [GMT] it returns the
    [IfRangeDate] of the date [parse_date] reads from the value, or
    fails as [parse_date] does; for any other value it returns the
    [IfRange] holding what [ETagMatcher.parse] returns.  The value is
    not trimmed before the test of its ending. *)
Theorem IfRange_parse_dispatch (value : option string) :
  (value = None \/ value = Some EmptyString ->
     IfRange_parse parse_date value = Return (IfRange AnyETag)) /\
  (forall v, value = Some v -> v <> EmptyString ->
     (exists pre, v = pre ++ " GMT") ->
     IfRange_parse parse_date value =
       match parse_date v with
       | Some d => Return (IfRangeDate d)
       | None => Raise ParseError
       end) /\
  (forall v, value = Some v -> v <> EmptyString ->
     ~ (exists pre, v = pre ++ " GMT") ->
     exists e, parse v = Return e /\
               IfRange_parse parse_date value = Return (IfRange e)).
Proof.
  split; [intros [-> | ->]; reflexivity|].
  split.
  - intros v -> Hne Hs. apply endswith_iff in Hs.
    unfold IfRange_parse, call_parse_date. rewrite Hs.
    destruct v; [congruence|]. simpl. destruct (parse_date _); reflexivity.
  - intros v -> Hne Hs.
    destruct (parse_loop_returns (String.length v) v [] [] (le_n _)) as [e He].
    exists e. split; [exact He|].
    unfold IfRange_parse. fold (parse v) in He. rewrite He.
    destruct (endswith " GMT" v) eqn:E.
    + apply endswith_iff in E. contradiction.
    + destruct v; [congruence | reflexivity].
Qed.

End IfRangeFacts.

Lemma IfRange_match_is_containment_witness :
  exists r,
    IfRange_parse HttpDate.parse_date (Some EmptyString) = Return r /\
    if_range_match Z.leb HttpDate.parse_date r (Some "abc") (LMDate 0%Z)
      = Return (PyBool true).
Proof.
  destruct (IfRange_match_is_containment Z Z.leb HttpDate.parse_date) as (_ & _ & H).
  apply (H (Some EmptyString) (Some "abc") (LMDate 0%Z)).
  right. reflexivity.
Defined.

Lemma IfRangeDate_match_spec_witness :
  IfRange_parse HttpDate.parse_date (Some "Sun, 06 Nov 1994 08:49:37 GMT")
    = Return (IfRangeDate 784111777%Z) /\
  IfRangeDate_match Z.leb HttpDate.parse_date 784111777%Z None
      (LMStr "Sun, 06 Nov 1994 08:49:37 GMT") = Return (PyBool true) /\
  IfRangeDate_match Z.leb HttpDate.parse_date 784111777%Z None
      (LMStr "Mon, 07 Nov 1994 08:49:37 GMT") = Return (PyBool false).
Proof.
  destruct (IfRangeDate_match_spec Z Z.leb HttpDate.parse_date) as (_ & H).
  apply (H 784111777%Z 784198177%Z); vm_compute; reflexivity.
Defined.

Lemma IfRange_parse_dispatch_witness :
  IfRange_parse HttpDate.parse_date (Some EmptyString) = Return (IfRange AnyETag) /\
  IfRange_parse HttpDate.parse_date (Some "Sun, 06 Nov 1994 08:49:37 GMT")
    = Return (IfRangeDate 784111777%Z) /\
  exists e, parse (DQ ++ "abc" ++ DQ) = Return e /\
            IfRange_parse HttpDate.parse_date (Some (DQ ++ "abc" ++ DQ))
              = Return (IfRange e).
Proof.
  split; [|split].
  - apply (proj1 (IfRange_parse_dispatch Z HttpDate.parse_date (Some EmptyString))).
    right. reflexivity.
  - apply (proj1 (proj2 (IfRange_parse_dispatch Z HttpDate.parse_date
                           (Some "Sun, 06 Nov 1994 08:49:37 GMT")))
             "Sun, 06 Nov 1994 08:49:37 GMT").
    + reflexivity.
    + discriminate.
    + exists "Sun, 06 Nov 1994 08:49:37". reflexivity.
  - apply (proj2 (proj2 (IfRange_parse_dispatch Z HttpDate.parse_date
                           (Some (DQ ++ "abc" ++ DQ))))
             (DQ ++ "abc" ++ DQ)).
    + reflexivity.
    + discriminate.
    + intros H. apply endswith_iff in H. discriminate.
Defined.

(** C4 as stated fails: on a date followed by a space the trimmed value
    ends with a space and [GMT], yet [IfRange.parse] takes the tag branch
    and returns an [IfRange], not an [IfRangeDate]. *)
Lemma IfRange_parse_trimmed_counterexample :
  let v := "Sun, 06 Nov 1994 08:49:37 GMT " in
  endswith " GMT" (strip v) = true /\
  IfRange_parse HttpDate.parse_date (Some v)
    = Return (IfRange (ETagMatcher ["Sun"; "06 Nov 1994 08:49:37 GMT"] [])) /\
  (forall d, IfRange_parse HttpDate.parse_date (Some v) <> Return (IfRangeDate d)) /\
  IfRange_parse HttpDate.parse_date (Some v)
    <> spec_IfRange_parse HttpDate.parse_date (Some v).
Proof.
  cbv zeta. split; [reflexivity|]. split; [reflexivity|].
  split; [intros d | ]; vm_compute; discriminate.
Qed.

(** ** Parsing a well-formed tag list *)

Section TagListFacts.

Lemma char_in_append (c : ascii) (a b : string) :
  char_in c (a ++ b) = char_in c a || char_in c b.
Proof.
  induction a as [|x a IH]; simpl; [reflexivity|].
  now rewrite IH, orb_assoc.
Qed.

(** How to step through the loop without counting fuel. *)
Lemma parse_loop_step (value : string) (fuel : nat) (rs ws : list string)
      (weak : bool) (etag rest : string) :
  value <> EmptyString ->
  String.length value <= fuel ->
  next_tag value = Return (weak, etag, rest) ->
  parse_loop fuel value rs ws =
    if String.eqb etag "*" then Return AnyETag
    else if nonempty etag then
      if weak then parse_loop (String.length rest) rest rs (ws ++ [etag])%list
      else parse_loop (String.length rest) rest (rs ++ [etag])%list ws
    else parse_loop (String.length rest) rest rs ws.
Proof.
  intros Hne Hfuel Hn.
  destruct value as [|c v]; [congruence|].
  destruct fuel as [|f]; [simpl in Hfuel; lia|].
  rewrite parse_loop_S, Hn.
  apply next_tag_shorter in Hn; [|discriminate]. simpl in Hn, Hfuel.
  destruct (String.eqb etag "*"); [reflexivity|].
  destruct (nonempty etag); [destruct weak|]; apply parse_loop_fuel; lia.
Qed.

(** A quoted element in front of any text [tail]: the turn reads its tag
    and leaves [tail], trimmed of commas and spaces. *)
Lemma next_tag_element (m : marker) (tag tail : string) :
  char_in dquote tag = false ->
  next_tag (element_text (m, tag) ++ tail) =
    Return (is_weak m, tag, strip_chars ", " tail).
Proof.
  intros Hq.
  assert (Hread : forall w,
    read_tag w (String dquote (tag ++ String dquote tail)) =
      Return (w, tag, strip_chars ", " tail)).
  { intros w. unfold read_tag, split1.
    change (startswith DQ (String dquote (tag ++ String dquote tail))) with true.
    cbv iota. change (drop 1 (String dquote (tag ++ String dquote tail)))
      with (tag ++ String dquote tail).
    rewrite (break_app dquote tag tail Hq). reflexivity. }
  assert (Htxt : element_text (m, tag) ++ tail =
                 marker_text m ++ String dquote (tag ++ String dquote tail)).
  { unfold element_text, DQ. simpl fst. simpl snd.
    rewrite !append_assoc. reflexivity. }
  rewrite Htxt. unfold next_tag.
  destruct m; simpl marker_text; simpl is_weak.
  - change (startswith "w/" (lower (EmptyString ++ String dquote (tag ++ String dquote tail))))
      with false. cbv iota. apply Hread.
  - change (startswith "w/" (lower ("W/" ++ String dquote (tag ++ String dquote tail))))
      with true. cbv iota. apply Hread.
  - change (startswith "w/" (lower ("w/" ++ String dquote (tag ++ String dquote tail))))
      with true. cbv iota. apply Hread.
Qed.

Lemma list_text_cons (e : marker * string) (es : list (marker * string)) :
  list_text (e :: es) =
    element_text e ++ match es with
                      | [] => EmptyString
                      | _ :: _ => ", " ++ list_text es
                      end.
Proof.
  destruct es; unfold list_text; simpl; [now rewrite append_nil_r | reflexivity].
Qed.

Lemma element_text_end (e : marker * string) :
  exists y, element_text e = y ++ DQ.
Proof.
  exists (marker_text (fst e) ++ DQ ++ snd e).
  unfold element_text. now rewrite !append_assoc.
Qed.

(** A non-empty list text ends with a quote ... *)
Lemma list_text_end (e : marker * string) (es : list (marker * string)) :
  exists y, list_text (e :: es) = y ++ DQ.
Proof.
  revert e; induction es as [|e' es IH]; intros e; rewrite list_text_cons.
  - rewrite append_nil_r. apply element_text_end.
  - destruct (IH e') as [y ->].
    exists (element_text e ++ ", " ++ y). now rewrite !append_assoc.
Qed.

(** ... and starts with a quote or the letter of the weak marker. *)
Lemma list_text_start (e : marker * string) (es : list (marker * string)) :
  exists c v,
    list_text (e :: es) = String c v /\
    char_in c ", " = false /\ char_in c whitespace = false.
Proof.
  rewrite list_text_cons. destruct e as [[| |] tag]; unfold element_text; simpl;
    eexists; eexists; (split; [reflexivity | split; reflexivity]).
Qed.

Lemma list_text_nonempty (e : marker * string) (es : list (marker * string)) :
  list_text (e :: es) <> EmptyString.
Proof.
  destruct (list_text_start e es) as (c & v & -> & _). discriminate.
Qed.

(** The separator in front of the next element is trimmed away, and
    nothing else is. *)
Lemma strip_separator (e : marker * string) (es : list (marker * string)) :
  strip_chars ", " (", " ++ list_text (e :: es)) = list_text (e :: es).
Proof.
  unfold strip_chars.
  assert (Hr : rstrip_chars ", " (", " ++ list_text (e :: es))
               = ", " ++ list_text (e :: es)).
  { destruct (list_text_end e es) as [y ->].
    rewrite <- append_assoc. apply rstrip_chars_end. reflexivity. }
  rewrite Hr.
  destruct (list_text_start e es) as (c & v & -> & Hc & _).
  simpl. simpl in Hc. now rewrite Hc.
Qed.

(** One turn of the loop on a well-formed list reads the first element and
    leaves the list of the others. *)
Lemma next_tag_list (m : marker) (tag : string) (es : list (marker * string)) :
  char_in dquote tag = false ->
  next_tag (list_text ((m, tag) :: es)) = Return (is_weak m, tag, list_text es).
Proof.
  intros Hq. rewrite list_text_cons, (next_tag_element m tag _ Hq).
  destruct es as [|e es]; [reflexivity | now rewrite strip_separator].
Qed.

Lemma well_formed_tag_true (tag : string) :
  well_formed_tag tag = true <->
  tag <> EmptyString /\ char_in dquote tag = false /\
  char_in "," tag = false /\ tag <> "*".
Proof.
  unfold well_formed_tag.
  rewrite !andb_true_iff, !negb_true_iff, String.eqb_neq.
  destruct tag; simpl; intuition congruence.
Qed.

(** The loop on a well-formed list appends the strong tags to the first
    list and the weak tags to the second, in order. *)
Lemma parse_loop_list (elems : list (marker * string)) (rs ws : list string) :
  Forall (fun e => well_formed_tag (snd e) = true) elems ->
  parse_loop (String.length (list_text elems)) (list_text elems) rs ws =
    Return (ETagMatcher (rs ++ strong_tags elems) (ws ++ weak_tags elems)).
Proof.
  revert rs ws; induction elems as [|[m tag] es IH]; intros rs ws Hwf.
  - simpl. now rewrite !app_nil_r.
  - inversion Hwf as [|e es' Htag Hes]; subst. simpl in Htag.
    apply well_formed_tag_true in Htag as (Hne & Hq & _ & Hstar).
    rewrite (parse_loop_step _ _ rs ws (is_weak m) tag (list_text es)
               (list_text_nonempty _ _) (le_n _) (next_tag_list m tag es Hq)).
    apply String.eqb_neq in Hstar. rewrite Hstar.
    destruct tag as [|c tag]; [congruence|]. simpl nonempty. cbv iota.
    destruct m; simpl is_weak; cbv iota; rewrite (IH _ _ Hes);
      unfold strong_tags, weak_tags; simpl; now rewrite <- app_assoc.
Qed.

Lemma to_str_strong (etags : list string) :
  to_str etags [] = list_text (map (fun tag => (Strong, tag)) etags).
Proof.
  unfold to_str, list_text. simpl. rewrite map_map. reflexivity.
Qed.

Lemma strong_tags_strong (etags : list string) :
  strong_tags (map (fun tag => (Strong, tag)) etags) = etags /\
  weak_tags (map (fun tag => (Strong, tag)) etags) = [].
Proof.
  unfold strong_tags, weak_tags.
  induction etags as [|t l [IH1 IH2]]; simpl; [auto|].
  rewrite IH1. auto.
Qed.

End TagListFacts.

(** C7: for strong tags that are not empty, hold neither quote nor comma
    and are not [*], and no weak tag, parsing the string form of the
    matcher gives back a matcher with the same strong tags, in the same
    order, and no weak tag. *)
Theorem parse_str_roundtrip (etags : list string) :
  Forall (fun tag => tag <> EmptyString /\ char_in dquote tag = false /\
                     char_in "," tag = false /\ tag <> "*") etags ->
  parse (str (ETagMatcher etags [])) = Return (ETagMatcher etags []).
Proof.
  intros Hwf. unfold str, parse. rewrite to_str_strong, parse_loop_list.
  - destruct (strong_tags_strong etags) as [-> ->]. reflexivity.
  - apply Forall_map. simpl.
    eapply Forall_impl; [|exact Hwf]. intros tag H.
    now apply well_formed_tag_true.
Qed.

Lemma parse_str_roundtrip_witness :
  parse (str (ETagMatcher ["abc"; "x y"; "W/z"] []))
    = Return (ETagMatcher ["abc"; "x y"; "W/z"] []).
Proof.
  apply (parse_str_roundtrip ["abc"; "x y"; "W/z"]).
  repeat constructor; discriminate.
Defined.

(** ** Containment after parsing *)

Section ContainmentFacts.

Lemma contains_matcher_iff (etags weak_etags : list string) (t : string) :
  contains (ETagMatcher etags weak_etags) (Some t) = true <->
  In t etags \/ In t weak_etags.
Proof.
  assert (Hin : forall l, existsb (String.eqb t) l = true <-> In t l).
  { intros l. rewrite existsb_exists. split.
    - intros (x & Hx & E). apply String.eqb_eq in E. now subst.
    - intros H. exists t. split; [exact H | apply String.eqb_refl]. }
  simpl. now rewrite orb_true_iff, !Hin.
Qed.

(** [ETagMatcher.parse] never returns [NoETag]. *)
Lemma parse_loop_kind (fuel : nat) (value : string) (rs ws : list string) (v : etag_value) :
  parse_loop fuel value rs ws = Return v ->
  v = AnyETag \/ exists etags weak_etags, v = ETagMatcher etags weak_etags.
Proof.
  revert value rs ws.
  induction fuel as [|f IH]; intros [|c s] rs ws; try discriminate;
    try (simpl; intros H; injection H as <-; eauto; fail).
  rewrite parse_loop_S.
  destruct (next_tag (String c s)) as [[[w e] r]|e|]; try discriminate.
  destruct (String.eqb e "*"); [intros H; injection H as <-; auto|].
  destruct (nonempty e); [destruct w|]; apply IH.
Qed.

(** The tags of the parsed matcher are the non-empty tag bodies the turns
    of the loop extract, added to what the two lists held. *)
Lemma parse_loop_tags (fuel : nat) (value : string) (rs ws etags weak_etags : list string)
      (t : string) :
  String.length value <= fuel ->
  parse_loop fuel value rs ws = Return (ETagMatcher etags weak_etags) ->
  In t etags \/ In t weak_etags <->
  In t rs \/ In t ws \/ (t <> EmptyString /\ In t (extracted_tags fuel value)).
Proof.
  revert value rs ws.
  induction fuel as [|f IH]; intros [|c s] rs ws Hlen;
    try (simpl; intros H; injection H as <- <-; tauto);
    simpl in Hlen; try lia.
  rewrite parse_loop_S. cbn [extracted_tags].
  destruct (next_tag (String c s)) as [[[w e] r]|e|] eqn:Hn; try discriminate.
  apply next_tag_shorter in Hn; [|discriminate]. simpl in Hn.
  destruct (String.eqb e "*"); [discriminate|].
  assert (Hr : String.length r <= f) by lia.
  destruct (nonempty e) eqn:He.
  - assert (Hne : e <> EmptyString) by (intros ->; discriminate).
    destruct w; intros H; rewrite (IH _ _ _ Hr H), in_app_iff; simpl;
      intuition (subst; auto; congruence).
  - apply nonempty_false in He. subst e.
    intros H; rewrite (IH _ _ _ Hr H); simpl; intuition congruence.
Qed.

End ContainmentFacts.

(** ** The elements of a well-formed list, as the specification reads them *)

Section SpecFacts.

Lemma split_all_no_sep (sep : ascii) (s : string) :
  char_in sep s = false -> Spec.split_all sep s = [s].
Proof.
  induction s as [|c s IH]; simpl; [reflexivity|].
  intros H. apply orb_false_iff in H as [Hc Hs].
  rewrite Ascii.eqb_sym, Hc, (IH Hs). reflexivity.
Qed.

Lemma split_all_app (sep : ascii) (a b : string) :
  char_in sep a = false ->
  Spec.split_all sep (a ++ String sep b) = a :: Spec.split_all sep b.
Proof.
  induction a as [|c a IH]; simpl; intros H.
  - now rewrite Ascii.eqb_refl.
  - apply orb_false_iff in H as [Hc Ha].
    rewrite Ascii.eqb_sym, Hc, (IH Ha). reflexivity.
Qed.

Lemma drop_last_app (s : string) (c : ascii) :
  Spec.drop_last (s ++ String c EmptyString) = s.
Proof.
  induction s as [|d s IH]; [reflexivity|].
  simpl. rewrite IH. destruct s; reflexivity.
Qed.

Lemma element_text_no_comma (m : marker) (tag : string) :
  char_in "," tag = false -> char_in "," (element_text (m, tag)) = false.
Proof.
  intros H. unfold element_text. rewrite !char_in_append. simpl fst. simpl snd.
  rewrite H. destruct m; reflexivity.
Qed.

(** Splitting a well-formed list at its commas gives the elements, each
    but the first after the space that follows the comma. *)
Lemma split_all_list_text (e : marker * string) (es : list (marker * string)) :
  Forall (fun e => char_in "," (snd e) = false) (e :: es) ->
  Spec.split_all "," (list_text (e :: es)) =
    element_text e :: map (fun e => " " ++ element_text e) es.
Proof.
  revert e; induction es as [|e' es IH]; intros [m tag] H;
    inversion H as [|x l Htag Hes]; subst; simpl in Htag;
    rewrite list_text_cons.
  - rewrite append_nil_r. apply split_all_no_sep.
    now apply element_text_no_comma.
  - change (", " ++ list_text (e' :: es))
      with (String "," (String " " (list_text (e' :: es)))).
    rewrite split_all_app by now apply element_text_no_comma.
    cbn [Spec.split_all]. change (Ascii.eqb " " ",") with false. cbv iota.
    rewrite (IH e' Hes). reflexivity.
Qed.

(** An element, with or without a space in front, stands for its tag. *)
Lemma element_tag_text (m : marker) (tag : string) (blank : bool) :
  Spec.element_tag ((if blank then " " else EmptyString) ++ element_text (m, tag)) = tag.
Proof.
  unfold Spec.element_tag.
  assert (Hstrip : strip ((if blank then " " else EmptyString) ++ element_text (m, tag))
                   = element_text (m, tag)).
  { unfold strip, strip_chars.
    destruct (element_text_end (m, tag)) as [y Hy].
    assert (Hr : forall pre, rstrip_chars whitespace (pre ++ element_text (m, tag))
                             = pre ++ element_text (m, tag)).
    { intros pre. rewrite Hy, <- append_assoc. apply rstrip_chars_end. reflexivity. }
    rewrite Hr. destruct blank, m; reflexivity. }
  rewrite Hstrip.
  assert (Hq : forall x,
    (if startswith DQ (String dquote (tag ++ DQ)) && endswith DQ (drop 1 (String dquote (tag ++ DQ)))
     then Spec.drop_last (drop 1 (String dquote (tag ++ DQ))) else x) = tag).
  { intros x. change (startswith DQ (String dquote (tag ++ DQ))) with true.
    change (drop 1 (String dquote (tag ++ DQ))) with (tag ++ DQ).
    assert (E : endswith DQ (tag ++ DQ) = true) by (apply endswith_iff; now exists tag).
    rewrite E. simpl andb. cbv iota. apply drop_last_app. }
  destruct m; unfold element_text; simpl fst; simpl snd; simpl marker_text.
  - change (startswith "w/" (lower (EmptyString ++ DQ ++ tag ++ DQ))) with false.
    cbv iota. apply Hq.
  - change (startswith "w/" (lower ("W/" ++ DQ ++ tag ++ DQ))) with true.
    cbv iota. apply Hq.
  - change (startswith "w/" (lower ("w/" ++ DQ ++ tag ++ DQ))) with true.
    cbv iota. apply Hq.
Qed.

Lemma elements_list_text (elems : list (marker * string)) :
  elems <> [] ->
  Forall (fun e => char_in "," (snd e) = false) elems ->
  Spec.elements (list_text elems) = map snd elems.
Proof.
  destruct elems as [|[m tag] es]; [congruence|]. intros _ H.
  unfold Spec.elements. rewrite (split_all_list_text _ _ H).
  simpl map. rewrite map_map. f_equal.
  - apply (element_tag_text m tag false).
  - apply map_ext. intros [m' tag']. apply (element_tag_text m' tag' true).
Qed.

Lemma tags_of_elems (elems : list (marker * string)) (t : string) :
  In t (strong_tags elems) \/ In t (weak_tags elems) <-> In t (map snd elems).
Proof.
  unfold strong_tags, weak_tags.
  induction elems as [|[m tag] es IH]; simpl; [tauto|].
  destruct (is_weak m); simpl; rewrite <- IH; tauto.
Qed.

End SpecFacts.


(** * Further properties of the module *)

(** ** What a parsed matcher holds *)

Section ParsedTags.

Lemma parse_loop_proper (fuel : nat) (value : string) (rs ws etags weak_etags : list string) :
  Forall proper_tag rs -> Forall proper_tag ws ->
  parse_loop fuel value rs ws = Return (ETagMatcher etags weak_etags) ->
  Forall proper_tag etags /\ Forall proper_tag weak_etags.
Proof.
  revert value rs ws.
  induction fuel as [|f IH]; intros [|c s] rs ws Hrs Hws; try discriminate;
    try (simpl; intros H; injection H as <- <-; auto; fail).
  rewrite parse_loop_S.
  destruct (next_tag (String c s)) as [[[w e] r]|e|]; try discriminate.
  destruct (String.eqb e "*") eqn:Hstar; [discriminate|].
  apply String.eqb_neq in Hstar.
  destruct (nonempty e) eqn:He; [|now apply IH].
  assert (Hp : proper_tag e) by (split; [intros ->; discriminate | exact Hstar]).
  destruct w; apply IH; auto; apply Forall_app; auto.
Qed.

End ParsedTags.

(** X1: the strong and the weak tags of a matcher that [ETagMatcher.parse]
    returns are never empty and never [*]. *)
Theorem parsed_tags_proper (value : string) (etags weak_etags : list string) :
  parse value = Return (ETagMatcher etags weak_etags) ->
  Forall (fun t => t <> EmptyString /\ t <> "*") etags /\
  Forall (fun t => t <> EmptyString /\ t <> "*") weak_etags.
Proof.
  intros H. apply (parse_loop_proper _ _ [] [] _ _ (Forall_nil _) (Forall_nil _) H).
Qed.

Lemma parsed_tags_proper_witness :
  Forall (fun t => t <> EmptyString /\ t <> "*") ["a"; "c "; "d"] /\
  Forall (fun t => t <> EmptyString /\ t <> "*") ["b"].
Proof.
  apply (parsed_tags_proper (DQ ++ "a" ++ DQ ++ ", W/" ++ DQ ++ "b" ++ DQ ++ ", c ,,d")).
  reflexivity.
Defined.

(** ** The string form read back *)

Section StrFacts.

(** The loop on a list of quoted elements whose tags may hold commas. *)
Lemma parse_loop_quoted (elems : list (marker * string)) (rs ws : list string) :
  Forall (fun e => quotable (snd e)) elems ->
  parse_loop (String.length (list_text elems)) (list_text elems) rs ws =
    Return (ETagMatcher (rs ++ strong_tags elems) (ws ++ weak_tags elems)).
Proof.
  revert rs ws; induction elems as [|[m tag] es IH]; intros rs ws Hq.
  - simpl. now rewrite !app_nil_r.
  - inversion Hq as [|e es' Htag Hes]; subst.
    destruct Htag as (Hne & Hdq & Hstar). simpl in Hne, Hdq, Hstar.
    rewrite (parse_loop_step _ _ rs ws (is_weak m) tag (list_text es)
               (list_text_nonempty _ _) (le_n _) (next_tag_list m tag es Hdq)).
    apply String.eqb_neq in Hstar. rewrite Hstar.
    destruct tag as [|c tag]; [congruence|]. simpl nonempty. cbv iota.
    destruct m; simpl is_weak; cbv iota; rewrite (IH _ _ Hes);
      unfold strong_tags, weak_tags; simpl; now rewrite <- app_assoc.
Qed.

Lemma to_str_list_text (etags weak_etags : list string) :
  to_str etags weak_etags = list_text (str_elems etags weak_etags).
Proof.
  unfold to_str, list_text, str_elems.
  rewrite fold_left_snoc, map_app, !map_map. reflexivity.
Qed.

Lemma str_elems_tags (etags weak_etags : list string) :
  strong_tags (str_elems etags weak_etags) = etags /\
  weak_tags (str_elems etags weak_etags) = weak_etags.
Proof.
  unfold strong_tags, weak_tags, str_elems.
  rewrite !filter_app, !map_app. split.
  - replace (filter (fun e : marker * string => negb (is_weak (fst e)))
               (map (fun tag => (WeakUpper, tag)) weak_etags)) with (@nil (marker * string)).
    + rewrite app_nil_r. induction etags as [|t l IH]; simpl; [reflexivity | now rewrite IH].
    + induction weak_etags as [|t l IH]; simpl; auto.
  - replace (filter (fun e : marker * string => is_weak (fst e))
               (map (fun tag => (Strong, tag)) etags)) with (@nil (marker * string)).
    + simpl. induction weak_etags as [|t l IH]; simpl; [reflexivity | now rewrite IH].
    + induction etags as [|t l IH]; simpl; auto.
Qed.

Lemma str_elems_quotable (etags weak_etags : list string) :
  Forall quotable etags -> Forall quotable weak_etags ->
  Forall (fun e => quotable (snd e)) (str_elems etags weak_etags).
Proof.
  intros Hs Hw. unfold str_elems. apply Forall_app. split; apply Forall_map; assumption.
Qed.

Lemma parse_to_str (etags weak_etags : list string) :
  Forall quotable etags -> Forall quotable weak_etags ->
  parse (to_str etags weak_etags) = Return (ETagMatcher etags weak_etags).
Proof.
  intros Hs Hw. unfold parse.
  rewrite to_str_list_text, (parse_loop_quoted _ [] [] (str_elems_quotable _ _ Hs Hw)).
  destruct (str_elems_tags etags weak_etags) as [-> ->]. reflexivity.
Qed.

End StrFacts.

(** X2: a matcher whose strong and weak tags are not empty, hold no quote
    and are not [*] is read back from its string form as it was, weak tags
    included; the tags may hold commas and blanks. *)
Theorem parse_str_roundtrip_weak (etags weak_etags : list string) :
  Forall (fun tag => tag <> EmptyString /\ char_in dquote tag = false /\ tag <> "*") etags ->
  Forall (fun tag => tag <> EmptyString /\ char_in dquote tag = false /\ tag <> "*") weak_etags ->
  parse (str (ETagMatcher etags weak_etags)) = Return (ETagMatcher etags weak_etags).
Proof.
  intros Hs Hw. apply parse_to_str; assumption.
Qed.

Lemma parse_str_roundtrip_weak_witness :
  parse (str (ETagMatcher ["a,b"; " c "] ["d"; "W/e"]))
    = Return (ETagMatcher ["a,b"; " c "] ["d"; "W/e"]).
Proof.
  apply (parse_str_roundtrip_weak ["a,b"; " c "] ["d"; "W/e"]);
    repeat constructor; discriminate.
Defined.

Lemma quotable_tags_of_elems (elems : list (marker * string)) :
  Forall (fun e => quotable (snd e)) elems ->
  Forall quotable (strong_tags elems) /\ Forall quotable (weak_tags elems).
Proof.
  unfold strong_tags, weak_tags.
  induction 1 as [|[m tag] es Htag Hes [IHs IHw]]; simpl; [auto|].
  destruct (is_weak m); simpl; auto.
Qed.

(** X3: the string form is a normal form.  A list of quoted elements
    whose tags are not empty, hold no quote and are not [*] parses to a
    matcher whose string form lists the strong tags first and then the
    weak tags, each after [W/], and that string form parses to the same
    matcher again. *)
Theorem str_is_normal_form (elems : list (marker * string)) :
  Forall (fun e => snd e <> EmptyString /\ char_in dquote (snd e) = false /\ snd e <> "*")
         elems ->
  exists v,
    parse (list_text elems) = Return v /\
    str v = list_text (map (fun tag => (Strong, tag)) (strong_tags elems) ++
                       map (fun tag => (WeakUpper, tag)) (weak_tags elems)) /\
    parse (str v) = Return v.
Proof.
  intros H.
  exists (ETagMatcher (strong_tags elems) (weak_tags elems)).
  destruct (quotable_tags_of_elems elems H) as [Hs Hw].
  split; [|split].
  - unfold parse. now rewrite (parse_loop_quoted elems [] [] H).
  - apply to_str_list_text.
  - apply parse_to_str; assumption.
Qed.

Lemma str_is_normal_form_witness :
  exists v,
    parse (DQ ++ "a" ++ DQ ++ ", w/" ++ DQ ++ "b" ++ DQ ++ ", " ++ DQ ++ "c" ++ DQ) = Return v /\
    str v = DQ ++ "a" ++ DQ ++ ", " ++ DQ ++ "c" ++ DQ ++ ", W/" ++ DQ ++ "b" ++ DQ /\
    parse (str v) = Return v.
Proof.
  apply (str_is_normal_form [(Strong, "a"); (WeakLower, "b"); (Strong, "c")]).
  repeat constructor; discriminate.
Defined.

(** ** The weak marker *)

Section WeakMarker.

Lemma read_tag_flag (w w' : bool) (v etag rest : string) :
  read_tag w v = Return (w, etag, rest) ->
  read_tag w' v = Return (w', etag, rest).
Proof.
  unfold read_tag, split1.
  destruct (startswith DQ v).
  - destruct (break dquote (drop 1 v)) as [[a b]|]; simpl;
      intros H; injection H as <- <-; reflexivity.
  - destruct (char_in "," v).
    + destruct (break "," v) as [[a b]|]; simpl; [|discriminate].
      intros H; injection H as <- <-; reflexivity.
    + intros H; injection H as <- <-; reflexivity.
Qed.

(** Two runs of the loop on the same text whose lists hold the same tags
    between them return values that contain the same tags. *)
Lemma parse_loop_same_tags (fuel : nat) (value : string)
      (rs ws rs' ws' : list string) (v v' : etag_value) :
  String.length value <= fuel ->
  (forall t, In t rs \/ In t ws <-> In t rs' \/ In t ws') ->
  parse_loop fuel value rs ws = Return v ->
  parse_loop fuel value rs' ws' = Return v' ->
  forall etag, contains v etag = contains v' etag.
Proof.
  intros Hlen Hsame Hv Hv' etag.
  pose proof (parse_loop_any fuel value rs ws Hlen) as Hany.
  pose proof (parse_loop_any fuel value rs' ws' Hlen) as Hany'.
  destruct (parse_loop_kind _ _ _ _ _ Hv) as [-> | (s & w & ->)];
    destruct (parse_loop_kind _ _ _ _ _ Hv') as [-> | (s' & w' & ->)].
  - reflexivity.
  - apply Hany in Hv. apply Hany' in Hv. rewrite Hv in Hv'. discriminate.
  - apply Hany' in Hv'. apply Hany in Hv'. rewrite Hv' in Hv. discriminate.
  - destruct etag as [t|]; [|reflexivity].
    apply Bool.eq_iff_eq_true. rewrite !contains_matcher_iff.
    rewrite (parse_loop_tags _ _ _ _ _ _ t Hlen Hv).
    rewrite (parse_loop_tags _ _ _ _ _ _ t Hlen Hv').
    specialize (Hsame t). tauto.
Qed.

Lemma next_tag_weak_upper (v : string) : next_tag ("W/" ++ v) = read_tag true v.
Proof. reflexivity. Qed.

Lemma next_tag_weak_lower (v : string) : next_tag ("w/" ++ v) = read_tag true v.
Proof. reflexivity. Qed.

End WeakMarker.

(** X4: the weak marker is read in either case, and it decides only which
    list a tag goes to, not which tags match: [W/] and [w/] in front of a
    text give the same result, and when the text does not itself start
    with the marker, the result contains the same tags with the marker in
    front as without it. *)
Theorem weak_marker_same_match (v : string) :
  parse ("W/" ++ v) = parse ("w/" ++ v) /\
  (startswith "w/" (lower v) = false ->
   forall v1 v2,
     parse ("W/" ++ v) = Return v1 ->
     parse v = Return v2 ->
     forall etag, contains v1 etag = contains v2 etag).
Proof.
  split.
  - unfold parse. cbn [String.append String.length]. rewrite !parse_loop_S.
    change (next_tag (String "W" (String "/" v))) with (next_tag ("W/" ++ v)).
    change (next_tag (String "w" (String "/" v))) with (next_tag ("w/" ++ v)).
    rewrite next_tag_weak_upper, next_tag_weak_lower. reflexivity.
  - intros Hv v1 v2.
    destruct (read_tag_returns true v) as (e & r & Hread).
    assert (Hlen : String.length ("W/" ++ v) <= String.length ("W/" ++ v)) by lia.
    unfold parse at 1.
    rewrite (parse_loop_step ("W/" ++ v) _ [] [] true e r
               ltac:(discriminate) Hlen Hread).
    destruct v as [|c v'].
    + injection Hread as <- <-. simpl. intros H1 H2.
      injection H1 as <-. injection H2 as <-. reflexivity.
    + assert (Hnext : next_tag (String c v') = Return (false, e, r)).
      { unfold next_tag. rewrite Hv. apply (read_tag_flag true false _ _ _ Hread). }
      unfold parse.
      rewrite (parse_loop_step (String c v') _ [] [] false e r
                 ltac:(discriminate) (le_n _) Hnext).
      destruct (String.eqb e "*").
      * intros H1 H2. injection H1 as <-. injection H2 as <-. reflexivity.
      * destruct (nonempty e).
        -- apply parse_loop_same_tags; [lia|]. intros t. simpl. tauto.
        -- intros H1 H2. rewrite H1 in H2. injection H2 as <-. reflexivity.
Qed.

Lemma weak_marker_same_match_witness :
  contains (ETagMatcher ["c"] ["a"]) (Some "a")
    = contains (ETagMatcher ["a"; "c"] []) (Some "a").
Proof.
  apply (proj2 (weak_marker_same_match (DQ ++ "a" ++ DQ ++ ", c")));
    reflexivity.
Defined.

(** ** Lists of tags written without quotes *)

Section BareListFacts.

Lemma last_char_none (s : string) : last_char s = None -> s = EmptyString.
Proof.
  induction s as [|c s IH]; [reflexivity|].
  simpl. destruct s; [discriminate|]. intros H. specialize (IH H). discriminate.
Qed.

Lemma last_char_cons (c : ascii) (s : string) :
  s <> EmptyString -> last_char (String c s) = last_char s.
Proof. destruct s; [congruence | reflexivity]. Qed.

Lemma last_char_append (a b : string) :
  last_char (a ++ b) =
    match last_char b with
    | Some c => Some c
    | None => last_char a
    end.
Proof.
  induction a as [|x a IH].
  - simpl. destruct (last_char b); reflexivity.
  - change (String x a ++ b) with (String x (a ++ b)).
    destruct a as [|y a'].
    + simpl append. destruct b as [|z b']; [reflexivity|].
      rewrite last_char_cons by discriminate.
      destruct (last_char (String z b')) eqn:E; [reflexivity|].
      apply last_char_none in E. discriminate.
    + rewrite last_char_cons by discriminate. rewrite IH.
      rewrite (last_char_cons x (String y a')) by discriminate. reflexivity.
Qed.









End BareListFacts.



(** ** The header property *)

Section PropertyFacts.

Lemma environ_get_set (env : environ) (key : string) (v : option string) :
  environ_get (environ_set env key v) key = v.
Proof. unfold environ_get, environ_set. now rewrite String.eqb_refl. Qed.

Lemma environ_get_set_other (env : environ) (key key' : string) (v : option string) :
  key' <> key ->
  environ_get (environ_set env key v) key' = environ_get env key'.
Proof.
  intros H. apply String.eqb_neq in H.
  unfold environ_get, environ_set. now rewrite H.
Qed.

(** The text of a non-empty list of quoted elements is neither empty nor
    the wildcard. *)
Lemma list_text_not_star (e : marker * string) (es : list (marker * string)) :
  nonempty (list_text (e :: es)) = true /\
  String.eqb (list_text (e :: es)) "*" = false.
Proof.
  rewrite list_text_cons. destruct e as [[| |] tag]; unfold element_text; simpl;
    split; reflexivity.
Qed.

Lemma str_elems_nonempty (etags weak_etags : list string) :
  etags <> [] \/ weak_etags <> [] ->
  exists e es, str_elems etags weak_etags = e :: es.
Proof.
  unfold str_elems.
  destruct etags as [|t l]; simpl; [|eauto].
  destruct weak_etags as [|t l]; simpl; [|eauto].
  intros [H | H]; congruence.
Qed.

Lemma fget_stored_matcher (key : string) (default : etag_value) (env : environ)
      (etags weak_etags : list string) :
  etags <> [] \/ weak_etags <> [] ->
  Forall quotable etags -> Forall quotable weak_etags ->
  fget key default (fset key env (Some (ETagMatcher etags weak_etags))) =
    Return (ETagMatcher etags weak_etags).
Proof.
  intros Hne Hs Hw. unfold fget, fset. rewrite environ_get_set.
  pose proof (parse_to_str etags weak_etags Hs Hw) as Hparse.
  simpl str. rewrite to_str_list_text in *.
  destruct (str_elems_nonempty _ _ Hne) as (e & es & E). rewrite E in *.
  destruct (list_text_not_star e es) as [-> ->]. exact Hparse.
Qed.

End PropertyFacts.

(** X6: what the getter of the property reads after the setter wrote.
    [AnyETag] is read back as [AnyETag]; [None], [NoETag] and a matcher
    without tags are read back as the default of the property; a matcher
    with at least one tag, whose tags are not empty, hold no quote and are
    not [*], is read back as it was. *)
Theorem fget_after_fset (key : string) (default : etag_value) (env : environ) :
  fget key default (fset key env (Some AnyETag)) = Return AnyETag /\
  fget key default (fset key env None) = Return default /\
  fget key default (fset key env (Some NoETag)) = Return default /\
  fget key default (fset key env (Some (ETagMatcher [] []))) = Return default /\
  (forall etags weak_etags,
      etags <> [] \/ weak_etags <> [] ->
      Forall (fun tag => tag <> EmptyString /\ char_in dquote tag = false /\ tag <> "*") etags ->
      Forall (fun tag => tag <> EmptyString /\ char_in dquote tag = false /\ tag <> "*") weak_etags ->
      fget key default (fset key env (Some (ETagMatcher etags weak_etags))) =
        Return (ETagMatcher etags weak_etags)).
Proof.
  repeat split; try (unfold fget, fset; rewrite environ_get_set; reflexivity).
  intros etags weak_etags. apply fget_stored_matcher.
Qed.

Lemma fget_after_fset_witness :
  fget "HTTP_IF_NONE_MATCH" NoETag
       (fset "HTTP_IF_NONE_MATCH" (fun _ => None) (Some (ETagMatcher ["a"] ["b,c"])))
    = Return (ETagMatcher ["a"] ["b,c"]).
Proof.
  apply (proj2 (proj2 (proj2 (proj2
           (fget_after_fset "HTTP_IF_NONE_MATCH" NoETag (fun _ => None)))))).
  - left. discriminate.
  - repeat constructor; discriminate.
  - repeat constructor; discriminate.
Defined.

(** X7: the deleter raises [KeyError] when the key is absent.  After the
    setter wrote any value, [None] included, the key is present: the
    deleter removes it, the getter then returns the default, a second
    deletion raises [KeyError], and the other keys are as they were. *)
Theorem fdel_after_fset (key : string) (env : environ) :
  (env key = None -> fdel key env = RaiseKeyError) /\
  (forall val, exists env',
      fdel key (fset key env val) = Done env' /\
      (forall default, fget key default env' = Return default) /\
      fdel key env' = RaiseKeyError /\
      (forall k, k <> key -> env' k = env k)).
Proof.
  split.
  - intros H. unfold fdel, environ_del. now rewrite H.
  - intros val.
    exists (fun k => if String.eqb k key then None else fset key env val k).
    assert (Hpresent : exists v, fset key env val key = Some v).
    { destruct val; unfold fset, environ_set; rewrite String.eqb_refl; eauto. }
    destruct Hpresent as [v Hv].
    split; [|split; [|split]].
    + unfold fdel, environ_del. now rewrite Hv.
    + intros default. unfold fget, environ_get. now rewrite String.eqb_refl.
    + unfold fdel, environ_del. now rewrite String.eqb_refl.
    + intros k Hk. apply String.eqb_neq in Hk. rewrite Hk.
      destruct val; unfold fset, environ_set; now rewrite Hk.
Qed.

Lemma fdel_after_fset_witness :
  fdel "HTTP_IF_MATCH" (fun _ => None) = RaiseKeyError.
Proof.
  apply (proj1 (fdel_after_fset "HTTP_IF_MATCH" (fun _ => None))). reflexivity.
Defined.

(** X8: writing or deleting the header of one key does not change what the
    getter of another key returns. *)
Theorem fget_other_key (key key' : string) (default : etag_value) (env : environ) :
  key' <> key ->
  (forall val, fget key' default (fset key env val) = fget key' default env) /\
  (forall env', fdel key env = Done env' -> fget key' default env' = fget key' default env).
Proof.
  intros Hk. split.
  - intros val. unfold fget.
    destruct val; unfold fset; now rewrite environ_get_set_other.
  - intros env'. unfold fdel, environ_del.
    destruct (env key); [|discriminate]. intros H. injection H as <-.
    apply String.eqb_neq in Hk. unfold fget, environ_get. now rewrite Hk.
Qed.

Lemma fget_other_key_witness :
  fget "HTTP_IF_MATCH" AnyETag
       (fset "HTTP_IF_NONE_MATCH" (environ_set (fun _ => None) "HTTP_IF_MATCH" (Some "x"))
             (Some AnyETag))
    = fget "HTTP_IF_MATCH" AnyETag
           (environ_set (fun _ => None) "HTTP_IF_MATCH" (Some "x")).
Proof.
  apply (proj1 (fget_other_key "HTTP_IF_NONE_MATCH" "HTTP_IF_MATCH" AnyETag
                  (environ_set (fun _ => None) "HTTP_IF_MATCH" (Some "x"))
                  ltac:(discriminate))).
Defined.

(** X9: the getter never fails.  It returns the default when the header is
    absent, [None] or empty, and otherwise [AnyETag] or a matcher whose
    tags are neither empty nor [*]. *)
Theorem fget_returns (key : string) (default : etag_value) (env : environ) :
  (environ_get env key = None \/ environ_get env key = Some EmptyString ->
   fget key default env = Return default) /\
  (forall value, environ_get env key = Some value -> value <> EmptyString ->
   fget key default env = Return AnyETag \/
   exists etags weak_etags,
     fget key default env = Return (ETagMatcher etags weak_etags) /\
     Forall (fun t => t <> EmptyString /\ t <> "*") etags /\
     Forall (fun t => t <> EmptyString /\ t <> "*") weak_etags).
Proof.
  split.
  - unfold fget. intros [-> | ->]; reflexivity.
  - intros value Hget Hne. unfold fget. rewrite Hget.
    destruct value as [|c v]; [congruence|]. simpl negb. cbv iota.
    destruct (String.eqb (String c v) "*"); [now left|].
    destruct (parse_loop_returns (String.length (String c v)) (String c v) [] [] (le_n _))
      as [r Hr].
    fold (parse (String c v)) in Hr. rewrite Hr.
    destruct (parse_loop_kind _ _ _ _ _ Hr) as [-> | (s & w & ->)]; [now left|].
    right. exists s, w. split; [reflexivity|].
    apply (parse_loop_proper _ _ [] [] _ _ (Forall_nil _) (Forall_nil _) Hr).
Qed.

Lemma fget_returns_witness :
  fget "HTTP_IF_NONE_MATCH" NoETag (environ_set (fun _ => None) "HTTP_IF_NONE_MATCH" None)
    = Return NoETag.
Proof.
  apply (proj1 (fget_returns "HTTP_IF_NONE_MATCH" NoETag
                  (environ_set (fun _ => None) "HTTP_IF_NONE_MATCH" None))).
  left. reflexivity.
Defined.

(** ** More on If-Range *)

Section IfRangeMore.

Variable Date : Type.
Variable date_le : Date -> Date -> bool.
Variable parse_date : string -> option Date.

Lemma endswith_last_char (p s : string) (c : ascii) :
  endswith p s = true -> last_char p = Some c -> last_char s = Some c.
Proof.
  intros H Hp. apply endswith_iff in H as [pre ->].
  now rewrite last_char_append, Hp.
Qed.

(** The text of a list of quoted elements does not look like a date. *)
Lemma list_text_not_date (e : marker * string) (es : list (marker * string)) :
  endswith " GMT" (list_text (e :: es)) = false.
Proof.
  destruct (endswith " GMT" (list_text (e :: es))) eqn:E; [|reflexivity].
  apply (endswith_last_char _ _ "T") in E; [|reflexivity].
  destruct (list_text_end e es) as [y Hy].
  rewrite Hy, last_char_append in E. discriminate.
Qed.

Lemma IfRange_parse_list (e : marker * string) (es : list (marker * string)) :
  Forall (fun e => quotable (snd e)) (e :: es) ->
  IfRange_parse parse_date (Some (list_text (e :: es))) =
    Return (IfRange (ETagMatcher (strong_tags (e :: es)) (weak_tags (e :: es)))).
Proof.
  intros H. unfold IfRange_parse.
  destruct (list_text_not_star e es) as [-> _].
  rewrite list_text_not_date. simpl negb. cbv iota.
  unfold parse. rewrite (parse_loop_quoted _ [] [] H). reflexivity.
Qed.

(** X10: [IfRange.parse] fails in one case only: on a non-empty value that
    ends with a space and [GMT] and that [parse_date] rejects, with the
    [ParseError] of [parse_date]. *)
Theorem IfRange_parse_failure (value : option string) :
  IfRange_parse parse_date value <> OutOfFuel /\
  (forall e,
      IfRange_parse parse_date value = Raise e <->
      e = ParseError /\
      exists v, value = Some v /\ v <> EmptyString /\
                (exists pre, v = pre ++ " GMT") /\ parse_date v = None).
Proof.
  unfold IfRange_parse, call_parse_date.
  destruct value as [v|].
  2:{ split; [discriminate|]. intros e. split; [discriminate|].
      intros (_ & v & H & _). discriminate. }
  destruct v as [|c v].
  { split; [discriminate|]. intros e. split; [discriminate|].
    intros (_ & v & H & Hne & _). injection H as <-. congruence. }
  simpl negb. cbv iota.
  destruct (endswith " GMT" (String c v)) eqn:E.
  - destruct (parse_date (String c v)) as [d|] eqn:Hd; simpl.
    + split; [discriminate|]. intros e. split; [discriminate|].
      intros (_ & v' & H & _ & _ & Hnone). injection H as <-. congruence.
    + split; [discriminate|]. intros e. split.
      * intros H. injection H as <-. split; [reflexivity|].
        exists (String c v). repeat split; try discriminate; auto.
        now apply endswith_iff.
      * intros (-> & _). reflexivity.
  - destruct (parse_loop_returns (String.length (String c v)) (String c v) [] [] (le_n _))
      as [r Hr].
    fold (parse (String c v)) in Hr. rewrite Hr. simpl.
    split; [discriminate|]. intros e. split; [discriminate|].
    intros (_ & v' & H & _ & Hs & _). injection H as <-.
    apply endswith_iff in Hs. congruence.
Qed.

(** X11: [IfRangeDate.match] does not look at its [etag] argument.  It
    evaluates to [None] exactly when [last_modified] is [None], and it
    fails exactly when [last_modified] is a string that [parse_date]
    rejects, with the [ParseError] of [parse_date]. *)
Theorem IfRangeDate_match_edges (self_date : Date) (last_modified : last_modified_arg Date) :
  (forall etag etag',
      IfRangeDate_match date_le parse_date self_date etag last_modified =
      IfRangeDate_match date_le parse_date self_date etag' last_modified) /\
  (forall etag,
      IfRangeDate_match date_le parse_date self_date etag last_modified = Return PyNone <->
      last_modified = LMNone) /\
  (forall etag e,
      IfRangeDate_match date_le parse_date self_date etag last_modified = Raise e <->
      e = ParseError /\ exists s, last_modified = LMStr s /\ parse_date s = None) /\
  (forall etag,
      IfRangeDate_match date_le parse_date self_date etag last_modified <> OutOfFuel).
Proof.
  unfold IfRangeDate_match, call_parse_date.
  split; [reflexivity|].
  destruct last_modified as [|s|d]; simpl.
  - split; [tauto|]. split; [|discriminate].
    intros _ e. split; [discriminate | intros (_ & s & H & _); discriminate].
  - destruct (parse_date s) as [d|] eqn:Hd; simpl.
    + split; [intros _; split; discriminate|]. split; [|discriminate].
      intros _ e. split; [discriminate|].
      intros (_ & s' & H & Hn). injection H as <-. congruence.
    + split; [intros _; split; discriminate|]. split; [|discriminate].
      intros _ e. split.
      * intros H. injection H as <-. eauto.
      * intros (-> & _). reflexivity.
  - split; [intros _; split; discriminate|]. split; [|discriminate].
    intros _ e. split; [discriminate | intros (_ & s & H & _); discriminate].
Qed.

(** X12: the string form of an [IfRange] read back by [IfRange.parse].  An
    [IfRange] that holds a matcher with at least one tag, whose tags are
    not empty, hold no quote and are not [*], is read back as it was.  An
    [IfRange] that holds [AnyETag], [NoETag] or a matcher without tags has
    the empty string form, or the string form of no tags, and is read
    back as the [IfRange] of [AnyETag]. *)
Theorem IfRange_str_roundtrip :
  (forall etags weak_etags,
      etags <> [] \/ weak_etags <> [] ->
      Forall (fun tag => tag <> EmptyString /\ char_in dquote tag = false /\ tag <> "*") etags ->
      Forall (fun tag => tag <> EmptyString /\ char_in dquote tag = false /\ tag <> "*") weak_etags ->
      IfRange_parse parse_date (Some (IfRange_str (ETagMatcher etags weak_etags))) =
        Return (IfRange (ETagMatcher etags weak_etags))) /\
  (forall v,
      v = AnyETag \/ v = NoETag \/ v = ETagMatcher [] [] ->
      IfRange_str v = EmptyString /\
      IfRange_parse parse_date (Some (IfRange_str v)) = Return (IfRange AnyETag)).
Proof.
  split.
  - intros etags weak_etags Hne Hs Hw.
    unfold IfRange_str. simpl truthy. cbv iota. simpl str.
    rewrite to_str_list_text.
    destruct (str_elems_nonempty _ _ Hne) as (e & es & E).
    pose proof (str_elems_quotable _ _ Hs Hw) as Hq.
    destruct (str_elems_tags etags weak_etags) as [Es Ew].
    rewrite E in *. rewrite (IfRange_parse_list e es Hq), Es, Ew. reflexivity.
  - intros v [-> | [-> | ->]]; split; reflexivity.
Qed.

(** X13: an [If-Range] header that lists quoted tags, not empty, without
    quote and not [*], matches a response exactly when the response has
    an entity tag and it is one of the listed tags. *)
Theorem IfRange_list_match_response
        (elems : list (marker * string)) (r : response Date) :
  elems <> [] ->
  Forall (fun e => snd e <> EmptyString /\ char_in dquote (snd e) = false /\ snd e <> "*")
         elems ->
  exists v,
    IfRange_parse parse_date (Some (list_text elems)) = Return (IfRange v) /\
    (IfRange_match_response v r = true <->
     exists t, response_etag r = Some t /\ In t (map snd elems)).
Proof.
  intros Hne H. destruct elems as [|e es]; [congruence|].
  exists (ETagMatcher (strong_tags (e :: es)) (weak_tags (e :: es))).
  split; [now apply IfRange_parse_list|].
  unfold IfRange_match_response, IfRange_match.
  destruct (response_etag r) as [t|].
  - rewrite contains_matcher_iff, tags_of_elems. split.
    + intros Hin. now exists t.
    + intros (t' & E & Hin). injection E as ->. exact Hin.
  - split; [discriminate | intros (t & E & _); discriminate].
Qed.

(** X14: when the order on dates is transitive, a response that matches
    an [IfRangeDate] matches every [IfRangeDate] of a later date; and a
    response without last-modified date matches no [IfRangeDate]. *)
Theorem IfRangeDate_match_response_later (d d' : Date) (r : response Date) :
  (forall a b c, date_le a b = true -> date_le b c = true -> date_le a c = true) ->
  (date_le d d' = true ->
   IfRangeDate_match_response date_le parse_date d r = Return (PyBool true) ->
   IfRangeDate_match_response date_le parse_date d' r = Return (PyBool true)) /\
  (response_last_modified r = LMNone ->
   IfRangeDate_match_response date_le parse_date d r = Return PyNone).
Proof.
  intros Htrans. unfold IfRangeDate_match_response, IfRangeDate_match, call_parse_date.
  split.
  - intros Hle.
    destruct (response_last_modified r) as [|s|lm]; simpl; [discriminate| |].
    + destruct (parse_date s) as [lm|]; simpl; [|discriminate].
      intros H. injection H as H. now rewrite (Htrans _ _ _ H Hle).
    + intros H. injection H as H. now rewrite (Htrans _ _ _ H Hle).
  - intros ->. reflexivity.
Qed.

End IfRangeMore.

Lemma IfRange_parse_failure_witness :
  IfRange_parse HttpDate.parse_date (Some "x GMT") = Raise ParseError.
Proof.
  apply (proj2 (IfRange_parse_failure Z HttpDate.parse_date (Some "x GMT"))).
  split; [reflexivity|].
  exists "x GMT". repeat split; try discriminate.
  exists "x". reflexivity.
Defined.

Lemma IfRangeDate_match_edges_witness :
  IfRangeDate_match Z.leb HttpDate.parse_date 0%Z (Some "abc") (LMStr "yesterday")
    = Raise ParseError.
Proof.
  destruct (IfRangeDate_match_edges Z Z.leb HttpDate.parse_date 0%Z (LMStr "yesterday"))
    as (_ & _ & H & _).
  apply H. split; [reflexivity|].
  exists "yesterday". split; reflexivity.
Defined.

Lemma IfRange_str_roundtrip_witness :
  IfRange_parse HttpDate.parse_date (Some (IfRange_str (ETagMatcher ["a GMT"] ["b"])))
    = Return (IfRange (ETagMatcher ["a GMT"] ["b"])) /\
  IfRange_parse HttpDate.parse_date (Some (IfRange_str NoETag)) = Return (IfRange AnyETag).
Proof.
  destruct (IfRange_str_roundtrip Z HttpDate.parse_date) as [H1 H2].
  split.
  - apply H1; [left; discriminate | |]; repeat constructor; discriminate.
  - apply (H2 NoETag). right. left. reflexivity.
Defined.

Lemma IfRange_list_match_response_witness :
  exists v,
    IfRange_parse HttpDate.parse_date (Some (DQ ++ "a" ++ DQ ++ ", W/" ++ DQ ++ "b" ++ DQ))
      = Return (IfRange v) /\
    (IfRange_match_response v (Build_response Z (Some "b") LMNone) = true <->
     exists t, Some "b" = Some t /\ In t ["a"; "b"]).
Proof.
  apply (IfRange_list_match_response Z HttpDate.parse_date
           [(Strong, "a"); (WeakUpper, "b")] (Build_response Z (Some "b") LMNone)).
  - discriminate.
  - repeat constructor; discriminate.
Defined.

Lemma IfRangeDate_match_response_later_witness :
  IfRangeDate_match_response Z.leb HttpDate.parse_date 7%Z
      (Build_response Z None (LMDate 3%Z)) = Return (PyBool true).
Proof.
  apply (proj1 (IfRangeDate_match_response_later Z Z.leb HttpDate.parse_date 5%Z 7%Z
                  (Build_response Z None (LMDate 3%Z))
                  (fun a b c Hab Hbc =>
                     proj2 (Z.leb_le a c)
                           (Z.le_trans a b c (proj1 (Z.leb_le a b) Hab)
                                             (proj1 (Z.leb_le b c) Hbc)))));
    reflexivity.
Defined.

(** ** The wildcard inside a list *)

Section WildcardInList.

Lemma rstrip_chars_keep (chars a : string) (c : ascii) (tail : string) :
  char_in c chars = false ->
  rstrip_chars chars (a ++ String c tail) = a ++ String c (rstrip_chars chars tail).
Proof.
  intros Hc. induction a as [|d a IH].
  - simpl. destruct (rstrip_chars chars tail); [now rewrite Hc | reflexivity].
  - change (String d a ++ String c tail) with (String d (a ++ String c tail)).
    cbn [rstrip_chars]. rewrite IH. destruct a; reflexivity.
Qed.

Lemma rstrip_list_tail (h : string) :
  list_tail h -> list_tail (rstrip_chars ", " h).
Proof.
  intros [-> | [x ->]]; [now left|].
  cbn [rstrip_chars]. destruct (rstrip_chars ", " x).
  - now left.
  - right. eexists. reflexivity.
Qed.

(** A turn of the loop on the wildcard, alone or followed by a comma. *)
Lemma next_tag_star (h : string) :
  list_tail h -> exists rest, next_tag ("*" ++ h) = Return (false, "*", rest).
Proof.
  intros [-> | [x ->]]; eexists; reflexivity.
Qed.

Lemma strip_star_tail (h : string) :
  strip_chars ", " (", *" ++ h) = "*" ++ rstrip_chars ", " h.
Proof.
  unfold strip_chars.
  change (", *" ++ h) with (", " ++ String "*" h).
  rewrite rstrip_chars_keep by reflexivity. reflexivity.
Qed.

Lemma strip_list_star (e : marker * string) (es : list (marker * string)) (h : string) :
  strip_chars ", " (", " ++ list_text (e :: es) ++ ", *" ++ h) =
    list_text (e :: es) ++ ", *" ++ rstrip_chars ", " h.
Proof.
  unfold strip_chars.
  assert (Hr : rstrip_chars ", " (", " ++ list_text (e :: es) ++ ", *" ++ h)
               = ", " ++ list_text (e :: es) ++ ", *" ++ rstrip_chars ", " h).
  { change (", *" ++ h) with (", " ++ String "*" h).
    change (", *" ++ rstrip_chars ", " h) with (", " ++ String "*" (rstrip_chars ", " h)).
    rewrite <- !append_assoc. apply rstrip_chars_keep. reflexivity. }
  rewrite Hr.
  destruct (list_text_start e es) as (c & v & -> & Hc & _).
  simpl. simpl in Hc. now rewrite Hc.
Qed.

Lemma element_text_app_nonempty (m : marker) (tag x : string) :
  element_text (m, tag) ++ x <> EmptyString.
Proof. destruct m; discriminate. Qed.

Lemma parse_loop_list_star (es : list (marker * string)) :
  forall (e : marker * string) (h : string) (rs ws : list string),
    Forall (fun e => quotable (snd e)) (e :: es) ->
    list_tail h ->
    parse_loop (String.length (list_text (e :: es) ++ ", *" ++ h))
               (list_text (e :: es) ++ ", *" ++ h) rs ws = Return AnyETag.
Proof.
  induction es as [|e' es IH]; intros [m tag] h rs ws Hq Hh;
    inversion Hq as [|x l Htag Hes]; subst;
    destruct Htag as (Hne & Hdq & Hstar); simpl in Hne, Hdq, Hstar;
    apply String.eqb_neq in Hstar;
    rewrite list_text_cons, append_assoc.
  - change (EmptyString ++ ", *" ++ h) with (", *" ++ h).
    assert (Hnext := next_tag_element m tag (", *" ++ h) Hdq).
    rewrite strip_star_tail in Hnext.
    rewrite (parse_loop_step _ _ rs ws _ _ _
               (element_text_app_nonempty m tag _) (le_n _) Hnext).
    rewrite Hstar.
    destruct (next_tag_star _ (rstrip_list_tail h Hh)) as [rest Hrest].
    assert (Hfinal : forall rs' ws',
      parse_loop (String.length ("*" ++ rstrip_chars ", " h))
                 ("*" ++ rstrip_chars ", " h) rs' ws' = Return AnyETag).
    { intros rs' ws'.
      assert (Hne' : "*" ++ rstrip_chars ", " h <> EmptyString) by discriminate.
      now rewrite (parse_loop_step _ _ rs' ws' _ _ _ Hne' (le_n _) Hrest). }
    destruct (nonempty tag); [destruct (is_weak m)|]; apply Hfinal.
  - assert (Hnext := next_tag_element m tag ((", " ++ list_text (e' :: es)) ++ ", *" ++ h) Hdq).
    rewrite (append_assoc ", " (list_text (e' :: es))) in Hnext.
    rewrite (append_assoc ", " (list_text (e' :: es))).
    rewrite strip_list_star in Hnext.
    rewrite (parse_loop_step _ _ rs ws _ _ _
               (element_text_app_nonempty m tag _) (le_n _) Hnext).
    rewrite Hstar.
    destruct (nonempty tag); [destruct (is_weak m)|];
      apply IH; auto using rstrip_list_tail.
Qed.

End WildcardInList.

(** X15: the wildcard wins wherever it stands in a list.  The value [*],
    alone or followed by a comma and any text, parses to [AnyETag]; so
    does a list of quoted elements, with tags that are not empty, hold no
    quote and are not [*], followed by a comma, a space and [*], alone or
    followed by a comma and any text. *)
Theorem wildcard_in_list (h : string) :
  h = EmptyString \/ (exists x, h = String "," x) ->
  parse ("*" ++ h) = Return AnyETag /\
  (forall elems,
      elems <> [] ->
      Forall (fun e => snd e <> EmptyString /\ char_in dquote (snd e) = false /\ snd e <> "*")
             elems ->
      parse (list_text elems ++ ", *" ++ h) = Return AnyETag).
Proof.
  intros Hh. split.
  - destruct (next_tag_star h Hh) as [rest Hrest]. unfold parse.
    assert (Hne : "*" ++ h <> EmptyString) by discriminate.
    now rewrite (parse_loop_step _ _ [] [] _ _ _ Hne (le_n _) Hrest).
  - intros [|e es] Hne Hq; [congruence|].
    unfold parse. now apply parse_loop_list_star.
Qed.

Lemma wildcard_in_list_witness :
  parse (DQ ++ "a" ++ DQ ++ ", W/" ++ DQ ++ "b" ++ DQ ++ ", *," ++ DQ ++ "c, ")
    = Return AnyETag.
Proof.
  apply (proj2 (wildcard_in_list ("," ++ DQ ++ "c, ")
                  (or_intror (ex_intro _ (DQ ++ "c, ") eq_refl)))
           [(Strong, "a"); (WeakUpper, "b")]).
  - discriminate.
  - repeat constructor; discriminate.
Defined.

(** X16: on a header that holds a non-empty text the getter returns what
    [ETagMatcher.parse] returns on that text; the test of the getter for
    the text [*] changes nothing, since the text [*] parses to
    [AnyETag]. *)
Theorem fget_is_parse (key : string) (default : etag_value) (env : environ)
        (value : string) :
  environ_get env key = Some value ->
  value <> EmptyString ->
  fget key default env = parse value.
Proof.
  intros Hget Hne. unfold fget. rewrite Hget.
  destruct value as [|c v]; [congruence|]. simpl negb. cbv iota.
  destruct (String.eqb (String c v) "*") eqn:E; [|reflexivity].
  apply String.eqb_eq in E. rewrite E. reflexivity.
Qed.

Lemma fget_is_parse_witness :
  fget "HTTP_IF_MATCH" AnyETag
       (environ_set (fun _ => None) "HTTP_IF_MATCH" (Some ("W/" ++ DQ ++ "a" ++ DQ)))
    = parse ("W/" ++ DQ ++ "a" ++ DQ).
Proof.
  apply (fget_is_parse "HTTP_IF_MATCH" AnyETag
           (environ_set (fun _ => None) "HTTP_IF_MATCH" (Some ("W/" ++ DQ ++ "a" ++ DQ)))).
  - reflexivity.
  - discriminate.
Defined.

(** ** Parsing a list of quoted and unquoted elements *)

Section GrammarFacts.

















End GrammarFacts.

Section GrammarParse.





End GrammarParse.

(** ** The elements of a well-formed value, as the specification reads them *)

Section GrammarSpec.

Lemma split_all_prefix (sep : ascii) (a b : string) :
  char_in sep a = false ->
  exists x r, Spec.split_all sep b = x :: r /\
              Spec.split_all sep (a ++ b) = (a ++ x) :: r.
Proof.
  intros H. induction a as [|c a IH].
  - simpl. induction b as [|d b [x [r [E _]]]]; simpl; [eauto|].
    destruct (Ascii.eqb d sep); [eauto|]. rewrite E. eauto.
  - cbn [char_in] in H. apply orb_false_iff in H as [Hc Ha].
    destruct (IH Ha) as (x & r & E1 & E2). exists x, r. split; [exact E1|].
    cbn [String.append Spec.split_all]. now rewrite Ascii.eqb_sym, Hc, E2.
Qed.










End GrammarSpec.


